(** * YC AI startup tracker: the extraction, merge and report pipeline

    A shallow embedding of [scraper.py] (class [LinkedInScraper]) and the
    properties of its qualifier, store merger, store file format and report
    renderer.

    Python values are modelled as follows.
    - A [str] is the list of its code points ([pystr], code points in [N]).
    - A startup record is the dict the code builds at lines 119-124 and
      226-237: the four keys [name], [description], [url], [found_date], in
      that order, all holding a [str]. Every record has the four keys, so
      the defaults of [startup.get] at lines 172, 189 and 190 are never
      used.
    - A Python list object lives in a heap of list objects and is passed by
      reference, since [list.append] and [list.sort] update it in place.
    - The two files the class owns are the two fields of the file system,
      each holding the text that [f.read()] returns and [f.write] is given;
      a file that does not exist is [None]. Bytes and their encoding,
      failures of the operating system and the directory made by
      [ensure_data_dir] are not part of the model.
    - The decoder of [json.load] is modelled without the limits of the
      interpreter (the recursion limit on nested arrays and objects, the
      limit on the digits of an integer literal), and a loaded value that
      is not a list of records, on which lines 153 or 187-190 raise, ends
      the model's run with the exception [Unmodelled]. Neither arises on
      a store file that is absent or that the program itself saved.
    - The browser driver, the clock and the process environment are inputs
      of the run, described by an oracle record. Logging is left out. *)

From Stdlib Require Import NArith List String Ascii Lia Bool.
From stdpp Require Import base list sorting.

Set Default Proof Using "Type".
Set Warnings "-register-all".

(** ** Python built-ins used by the script *)

Module Py.

(** A [str]: its code points, in order. *)
Definition pystr := list N.

(** A literal of the source, given by its ASCII text. *)
Definition lit (s : string) : pystr := map N_of_ascii (list_ascii_of_string s).

(** [s.startswith(p)] *)
Fixpoint startswith (p s : pystr) : bool :=
  match p, s with
  | [], _ => true
  | _ :: _, [] => false
  | a :: p', b :: s' => (a =? b)%N && startswith p' s'
  end.

(** [needle in hay], the substring test on [str]. *)
Fixpoint str_in (needle hay : pystr) : bool :=
  startswith needle hay ||
  match hay with
  | [] => false
  | _ :: hay' => str_in needle hay'
  end.

(** [str.lower], one code point at a time. [A]-[Z] go to [a]-[z]. Every
    other code point is kept: the only use of [lower] in the script is a
    search for an ASCII phrase, and Python's lower-case mapping of a code
    point outside [A]-[Z] yields no character of that phrase, but for
    U+0130, mapped to [i] followed by U+0307, which no occurrence of a
    phrase not ending in [i] can include. *)
Definition lower_char (c : N) : N :=
  if ((65 <=? c) && (c <=? 90))%N then (c + 32)%N else c.

Definition lower (s : pystr) : pystr := map lower_char s.

(** [str.isspace] of one code point (Unicode White_Space as CPython has
    it in [_PyUnicode_IsWhitespace]). *)
Definition is_whitespace (c : N) : bool :=
  (((9 <=? c) && (c <=? 13)) || ((28 <=? c) && (c <=? 32))
   || (c =? 133) || (c =? 160) || (c =? 5760)
   || ((8192 <=? c) && (c <=? 8202))
   || (c =? 8232) || (c =? 8233) || (c =? 8239) || (c =? 8287)
   || (c =? 12288))%N.

(** [s.lstrip()], [s.rstrip()], [s.strip()] *)
Fixpoint lstrip (s : pystr) : pystr :=
  match s with
  | c :: s' => if is_whitespace c then lstrip s' else s
  | [] => []
  end.

Definition rstrip (s : pystr) : pystr := rev (lstrip (rev s)).

Definition strip (s : pystr) : pystr := rstrip (lstrip s).

(** [len(s)] *)
Definition len (s : pystr) : nat := length s.

(** [s[:n]] for a non-negative [n]: the slice stops at the end of [s]. *)
Fixpoint slice_to (n : nat) (s : pystr) : pystr :=
  match n, s with
  | O, _ => []
  | S _, [] => []
  | S n', c :: s' => c :: slice_to n' s'
  end.

(** Truth value of a [str]: the empty string is false. *)
Definition truthy (s : pystr) : bool :=
  match s with [] => false | _ :: _ => true end.

(** Order of [str]: lexicographic on code points. *)
Fixpoint str_compare (a b : pystr) : comparison :=
  match a, b with
  | [], [] => Eq
  | [], _ :: _ => Lt
  | _ :: _, [] => Gt
  | x :: a', y :: b' =>
      match (x ?= y)%N with
      | Eq => str_compare a' b'
      | c => c
      end
  end.

(** [a < b] on [str] *)
Definition str_lt (a b : pystr) : bool :=
  match str_compare a b with Lt => true | _ => false end.

Section Sort.
Context {A : Type} (key : A -> pystr).

(** One step of a stable insertion into an ascending list: [x] goes
    after the elements smaller than it and before the first one that is
    not, so ahead of the elements with an equal key. *)
Fixpoint insert_sorted (x : A) (l : list A) : list A :=
  match l with
  | [] => [x]
  | y :: l' =>
      if str_lt (key y) (key x) then y :: insert_sorted x l'
      else x :: y :: l'
  end.

(** The ascending stable sort [list.sort(key=key)] performs. CPython
    runs timsort, which only ever asks [key a < key b]; a stable sort
    has one possible result, so the insertion sort stands for it. *)
Fixpoint sort_asc (l : list A) : list A :=
  match l with
  | [] => []
  | x :: l' => insert_sorted x (sort_asc l')
  end.

(** [list.sort(key=key, reverse=True)]: CPython reverses the list,
    sorts it ascending and stably, and reverses the result. *)
Definition sort_reverse (l : list A) : list A :=
  rev (sort_asc (rev l)).
End Sort.

End Py.

Import Py.

(** ** The [json] module, as far as [json.dump(obj, f, indent=2)] and
    [json.load(f)] go *)

Module Json.

(** What [json.load] returns. A number keeps its lexeme: the script
    never computes with one. An object keeps its members in file order,
    as a [dict] does. *)
Inductive value :=
| Null
| Bool (b : bool)
| Number (lexeme : pystr)
| Str (s : pystr)
| Array (items : list value)
| Object (members : list (pystr * value)).

(** *** Encoding: [json.dump] with [indent=2], [ensure_ascii=True] *)

(** One lower-case hexadecimal digit, as ['{0:04x}'.format] writes it. *)
Definition hexdigit (d : N) : N :=
  if (d <? 10)%N then (48 + d)%N else (87 + d)%N.

(** ['\\u{0:04x}'.format(n)] for [n < 0x10000] *)
Definition u_escape (n : N) : pystr :=
  [92; 117;
   hexdigit (n / 4096 mod 16); hexdigit (n / 256 mod 16);
   hexdigit (n / 16 mod 16); hexdigit (n mod 16)]%N.

(** The replacement [encode_basestring_ascii] makes for one code point:
    the short escapes of [ESCAPE_DCT], the code point itself from space
    to [~], and [\uXXXX] (a surrogate pair above the basic plane)
    otherwise. *)
Definition escape_char (c : N) : pystr :=
  if (c =? 34)%N then [92; 34]%N          (* backslash, quote *)
  else if (c =? 92)%N then [92; 92]%N     (* backslash, backslash *)
  else if (c =? 10)%N then [92; 110]%N    (* backslash, n *)
  else if (c =? 13)%N then [92; 114]%N    (* backslash, r *)
  else if (c =? 9)%N then [92; 116]%N     (* backslash, t *)
  else if (c =? 8)%N then [92; 98]%N      (* backslash, b *)
  else if (c =? 12)%N then [92; 102]%N    (* backslash, f *)
  else if ((32 <=? c) && (c <=? 126))%N then [c]
  else if (c <? 65536)%N then u_escape c
  else
    let n := (c - 65536)%N in
    u_escape (N.lor 55296 (N.land (N.shiftr n 10) 1023))
    ++ u_escape (N.lor 56320 (N.land n 1023)).

Definition encode_basestring_ascii (s : pystr) : pystr :=
  [34%N] ++ flat_map escape_char s ++ [34%N].

(** ['\n' + ' ' * (indent * level)] with [indent = 2] *)
Definition newline_indent (level : nat) : pystr :=
  10%N :: repeat 32%N (2 * level).

(** [_iterencode], joined: items are separated by [','] and a new line,
    a key from its value by [': ']; an empty list or dict is written
    without a line break. *)
Fixpoint encode (level : nat) (v : value) : pystr :=
  match v with
  | Null => lit "null"
  | Bool true => lit "true"
  | Bool false => lit "false"
  | Number lexeme => lexeme
  | Str s => encode_basestring_ascii s
  | Array [] => lit "[]"
  | Array (x :: xs) =>
      lit "[" ++ newline_indent (S level) ++ encode (S level) x
      ++ (fix rest (l : list value) : pystr :=
            match l with
            | [] => []
            | y :: l' =>
                lit "," ++ newline_indent (S level) ++ encode (S level) y
                ++ rest l'
            end) xs
      ++ newline_indent level ++ lit "]"
  | Object [] => lit "{}"
  | Object ((k, x) :: ms) =>
      lit "{" ++ newline_indent (S level)
      ++ encode_basestring_ascii k ++ lit ": " ++ encode (S level) x
      ++ (fix rest (l : list (pystr * value)) : pystr :=
            match l with
            | [] => []
            | (k', y) :: l' =>
                lit "," ++ newline_indent (S level)
                ++ encode_basestring_ascii k' ++ lit ": "
                ++ encode (S level) y ++ rest l'
            end) ms
      ++ newline_indent level ++ lit "}"
  end.

(** [json.dumps(obj, indent=2)]: the text [json.dump] writes. *)
Definition dumps (v : value) : pystr := encode 0 v.

(** *** Decoding: [json.load], that is [json.loads(f.read())] *)

(** A decoder returns the value with the text left after it, or raises
    [JSONDecodeError]. [OutOfFuel] is the model's own: the recursion of
    the decoder is bounded by a budget, and [loads] gives it a budget it
    cannot use up (lemma [loads_has_fuel]). The recursion limit of the
    interpreter is not modelled. *)
Inductive result (A : Type) :=
| Parsed (a : A) (rest : pystr)
| DecodeError
| OutOfFuel.
Arguments Parsed {A} a rest.
Arguments DecodeError {A}.
Arguments OutOfFuel {A}.

(** [WHITESPACE = re.compile(r'[ \t\n\r]*')] *)
Definition is_ws (c : N) : bool :=
  ((c =? 32) || (c =? 9) || (c =? 10) || (c =? 13))%N.

(** The text from the end of the [WHITESPACE] match on. *)
Fixpoint skip_ws (s : pystr) : pystr :=
  match s with
  | c :: s' => if is_ws c then skip_ws s' else s
  | [] => []
  end.

(** Value of one hexadecimal digit, either case. *)
Definition hexval (c : N) : option N :=
  if ((48 <=? c) && (c <=? 57))%N then Some (c - 48)%N
  else if ((97 <=? c) && (c <=? 102))%N then Some (c - 87)%N
  else if ((65 <=? c) && (c <=? 70))%N then Some (c - 55)%N
  else None.

(** [_decode_uXXXX]: the four digits after [\u]. *)
Definition decode_hex4 (h3 h2 h1 h0 : N) : option N :=
  match hexval h3, hexval h2, hexval h1, hexval h0 with
  | Some a, Some b, Some c, Some d => Some (((a * 16 + b) * 16 + c) * 16 + d)%N
  | _, _, _, _ => None
  end.

(** The [BACKSLASH] table: the character a short escape stands for. *)
Definition backslash (e : N) : option N :=
  if (e =? 34)%N then Some 34%N          (* quote *)
  else if (e =? 92)%N then Some 92%N     (* backslash *)
  else if (e =? 47)%N then Some 47%N     (* slash *)
  else if (e =? 98)%N then Some 8%N      (* b *)
  else if (e =? 102)%N then Some 12%N    (* f *)
  else if (e =? 110)%N then Some 10%N    (* n *)
  else if (e =? 114)%N then Some 13%N    (* r *)
  else if (e =? 116)%N then Some 9%N     (* t *)
  else None.

Definition push (c : N) (r : option (pystr * pystr)) : option (pystr * pystr) :=
  match r with
  | Some (str, rest) => Some (c :: str, rest)
  | None => None
  end.

(** [scanstring(s, end, strict=True)], from just after the opening quote:
    the decoded string and the text after the closing quote. A raw
    control character, an unknown escape, a bad [\u] escape and a missing
    closing quote raise. A [\u] escape of a high surrogate followed by
    one of a low surrogate is read as one code point. *)
Fixpoint scanstring (s : pystr) : option (pystr * pystr) :=
  match s with
  | [] => None
  | c :: s1 =>
      if (c =? 34)%N then Some ([], s1)
      else if (c =? 92)%N then
        match s1 with
        | [] => None
        | e :: s2 =>
            if (e =? 117)%N then
              match s2 with
              | h3 :: h2 :: h1 :: h0 :: s3 =>
                  match decode_hex4 h3 h2 h1 h0 with
                  | None => None
                  | Some uni =>
                      match s3 with
                      | b :: u :: g3 :: g2 :: g1 :: g0 :: s4 =>
                          if ((55296 <=? uni) && (uni <=? 56319)
                              && (b =? 92) && (u =? 117))%N
                          then
                            match decode_hex4 g3 g2 g1 g0 with
                            | None => None
                            | Some uni2 =>
                                if ((56320 <=? uni2) && (uni2 <=? 57343))%N
                                then
                                  push (65536 + N.lor (N.shiftl (uni - 55296) 10)
                                                      (uni2 - 56320))%N
                                       (scanstring s4)
                                else push uni (scanstring s3)
                            end
                          else push uni (scanstring s3)
                      | _ => push uni (scanstring s3)
                      end
                  end
              | _ => None
              end
            else
              match backslash e with
              | None => None
              | Some ch => push ch (scanstring s2)
              end
        end
      else if (c <? 32)%N then None
      else push c (scanstring s1)
  end.

Definition is_digit (c : N) : bool := ((48 <=? c) && (c <=? 57))%N.

(** The longest run of digits at the head of [s], and the rest. *)
Fixpoint span_digits (s : pystr) : pystr * pystr :=
  match s with
  | c :: s' =>
      if is_digit c then let (d, r) := span_digits s' in (c :: d, r)
      else ([], s)
  | [] => ([], [])
  end.

(** [NUMBER_RE], group by group. The integer: an optional minus sign,
    then a lone zero or a digit from one to nine with any digits after
    it. The fraction, optional: a dot and at least one digit. The
    exponent, optional: [e] or [E], an optional sign, at least one
    digit. *)
Definition match_int (s : pystr) : option (pystr * pystr) :=
  let (sign, s1) :=
    match s with
    | c :: s' => if (c =? 45)%N then ([45%N], s') else ([], s)
    | [] => ([], [])
    end in
  match s1 with
  | c :: s2 =>
      if (c =? 48)%N then Some (sign ++ [48%N], s2)
      else if is_digit c then
        let (d, r) := span_digits s2 in Some (sign ++ c :: d, r)
      else None
  | [] => None
  end.

Definition match_frac (s : pystr) : pystr * pystr :=
  match s with
  | c :: s1 =>
      if (c =? 46)%N then
        match span_digits s1 with
        | ([], _) => ([], s)
        | (d, r) => (c :: d, r)
        end
      else ([], s)
  | [] => ([], [])
  end.

Definition match_exp (s : pystr) : pystr * pystr :=
  match s with
  | e :: s1 =>
      if ((e =? 101) || (e =? 69))%N then
        let (sign, s2) :=
          match s1 with
          | c :: s' => if ((c =? 45) || (c =? 43))%N then ([c], s') else ([], s1)
          | [] => ([], [])
          end in
        match span_digits s2 with
        | ([], _) => ([], s)
        | (d, r) => (e :: sign ++ d, r)
        end
      else ([], s)
  | [] => ([], [])
  end.

Definition match_number (s : pystr) : option (pystr * pystr) :=
  match match_int s with
  | None => None
  | Some (i, r) =>
      let (f, r1) := match_frac r in
      let (e, r2) := match_exp r1 in
      Some (i ++ f ++ e, r2)
  end.

(** [d[k] = v] on a [dict]: a key already there keeps its place. *)
Fixpoint dict_set (k : pystr) (v : value) (d : list (pystr * value))
  : list (pystr * value) :=
  match d with
  | [] => [(k, v)]
  | (k', v') :: d' =>
      if decide (k = k') then (k', v) :: d' else (k', v') :: dict_set k v d'
  end.

(** [dict(pairs)] *)
Definition dict_of_pairs (pairs : list (pystr * value)) : list (pystr * value) :=
  fold_left (fun d kv => dict_set kv.1 kv.2 d) pairs [].

(** [scan_once], [JSONArray] and [JSONObject]. [elements] is the loop of
    [JSONArray] at the start of a value, with the values read so far;
    [members] is the loop of [JSONObject] just after the opening quote of
    a key, with the pairs read so far. *)
Fixpoint scan_once (fuel : nat) (s : pystr) : result value :=
  match fuel with
  | O => OutOfFuel
  | S fuel' =>
      match s with
      | [] => DecodeError
      | c :: s' =>
          if (c =? 34)%N then
            match scanstring s' with
            | Some (str, r) => Parsed (Str str) r
            | None => DecodeError
            end
          else if (c =? 123)%N then
            match skip_ws s' with
            | d :: r =>
                if (d =? 125)%N then Parsed (Object []) r
                else if (d =? 34)%N then
                  match members fuel' r [] with
                  | Parsed pairs r' => Parsed (Object (dict_of_pairs pairs)) r'
                  | DecodeError => DecodeError
                  | OutOfFuel => OutOfFuel
                  end
                else DecodeError
            | [] => DecodeError
            end
          else if (c =? 91)%N then
            match skip_ws s' with
            | d :: r =>
                if (d =? 93)%N then Parsed (Array []) r
                else
                  match elements fuel' (d :: r) [] with
                  | Parsed values r' => Parsed (Array values) r'
                  | DecodeError => DecodeError
                  | OutOfFuel => OutOfFuel
                  end
            | [] => DecodeError
            end
          else if startswith (lit "null") s then Parsed Null (drop 4 s)
          else if startswith (lit "true") s then Parsed (Bool true) (drop 4 s)
          else if startswith (lit "false") s then Parsed (Bool false) (drop 5 s)
          else
            match match_number s with
            | Some (lexeme, r) => Parsed (Number lexeme) r
            | None =>
                if startswith (lit "NaN") s
                then Parsed (Number (lit "NaN")) (drop 3 s)
                else if startswith (lit "Infinity") s
                then Parsed (Number (lit "Infinity")) (drop 8 s)
                else if startswith (lit "-Infinity") s
                then Parsed (Number (lit "-Infinity")) (drop 9 s)
                else DecodeError
            end
      end
  end
with elements (fuel : nat) (s : pystr) (values : list value)
  : result (list value) :=
  match fuel with
  | O => OutOfFuel
  | S fuel' =>
      match scan_once fuel' s with
      | Parsed v r =>
          match skip_ws r with
          | c :: r' =>
              if (c =? 93)%N then Parsed (values ++ [v]) r'
              else if (c =? 44)%N
              then elements fuel' (skip_ws r') (values ++ [v])
              else DecodeError
          | [] => DecodeError
          end
      | DecodeError => DecodeError
      | OutOfFuel => OutOfFuel
      end
  end
with members (fuel : nat) (s : pystr) (pairs : list (pystr * value))
  : result (list (pystr * value)) :=
  match fuel with
  | O => OutOfFuel
  | S fuel' =>
      match scanstring s with
      | None => DecodeError
      | Some (key, r) =>
          match skip_ws r with
          | c :: r1 =>
              if (c =? 58)%N then
                match scan_once fuel' (skip_ws r1) with
                | Parsed v r2 =>
                    match skip_ws r2 with
                    | d :: r3 =>
                        if (d =? 125)%N then Parsed (pairs ++ [(key, v)]) r3
                        else if (d =? 44)%N then
                          match skip_ws r3 with
                          | q :: r4 =>
                              if (q =? 34)%N
                              then members fuel' r4 (pairs ++ [(key, v)])
                              else DecodeError
                          | [] => DecodeError
                          end
                        else DecodeError
                    | [] => DecodeError
                    end
                | DecodeError => DecodeError
                | OutOfFuel => OutOfFuel
                end
              else DecodeError
          | [] => DecodeError
          end
      end
  end.

(** [json.loads(s)]: a byte order mark is refused, white space is
    allowed around the one value, anything after it is [Extra data]. *)
Definition loads (s : pystr) : result value :=
  if startswith [65279%N] s then DecodeError
  else
    match scan_once (2 * length s + 1) (skip_ws s) with
    | Parsed v r =>
        match skip_ws r with
        | [] => Parsed v []
        | _ :: _ => DecodeError
        end
    | DecodeError => DecodeError
    | OutOfFuel => OutOfFuel
    end.

End Json.

(** ** The startup records and the store file *)

(** The dict of one startup: keys [name], [description], [url] and
    [found_date], each holding a [str]. *)
Record StartupRecord := {
  name : pystr;
  description : pystr;
  url : pystr;
  found_date : pystr
}.

(** The record as [json.dump] sees it: a dict with its keys in the order
    they were inserted. *)
Definition record_to_json (r : StartupRecord) : Json.value :=
  Json.Object [ (lit "name", Json.Str (name r));
                (lit "description", Json.Str (description r));
                (lit "url", Json.Str (url r));
                (lit "found_date", Json.Str (found_date r)) ].

(** The record a loaded JSON value is, when it is one. *)
Definition record_of_json (v : Json.value) : option StartupRecord :=
  match v with
  | Json.Object [ (k1, Json.Str n); (k2, Json.Str d);
                  (k3, Json.Str u); (k4, Json.Str f) ] =>
      if decide (k1 = lit "name" /\ k2 = lit "description"
                 /\ k3 = lit "url" /\ k4 = lit "found_date")
      then Some {| name := n; description := d; url := u; found_date := f |}
      else None
  | _ => None
  end.

Definition store_to_json (l : list StartupRecord) : Json.value :=
  Json.Array (map record_to_json l).

Definition store_of_json (v : Json.value) : option (list StartupRecord) :=
  match v with
  | Json.Array items => mapM record_of_json items
  | _ => None
  end.

(** ** State of a run: the two files and the heap of list objects *)

Inductive file_id := DataFile | ResultsFile.

(** [data_file] is the text of [data/startups.json] and [results_file]
    that of [README.md], as [f.read()] returns it; [None] is a file that
    does not exist. [written] lists the files opened for writing, latest
    first. [heap] holds the Python list objects of records; a reference is
    an index into it. *)
Record World := {
  data_file : option pystr;
  results_file : option pystr;
  written : list file_id;
  heap : list (list StartupRecord)
}.

Definition ref := nat.

(** The exceptions of the model. [RecursionError] is raised only when
    the decoder's budget runs out, which does not happen. [Unmodelled]
    stands for whatever the script does on a store file that holds JSON
    other than an array of startup records: the model says nothing about
    such a run. *)
Inductive exn := WebDriverException | RecursionError | Unmodelled.

Inductive outcome (A : Type) :=
| Return (a : A)
| Raise (e : exn).
Arguments Return {A} a.
Arguments Raise {A} e.

(** A computation changes the world and returns or raises; what it did to
    the world before raising stays done. *)
Definition M (A : Type) : Type := World -> outcome A * World.

#[global] Instance M_ret : MRet M := fun A a w => (Return a, w).

#[global] Instance M_bind : MBind M := fun A B f m w =>
  match m w with
  | (Return a, w') => f a w'
  | (Raise e, w') => (Raise e, w')
  end.

Definition raise {A} (e : exn) : M A := fun w => (Raise e, w).

(** [try: body except Exception: handler] *)
Definition try_except {A} (body : M A) (handler : exn -> M A) : M A := fun w =>
  match body w with
  | (Return a, w') => (Return a, w')
  | (Raise e, w') => handler e w'
  end.

Definition get_world : M World := fun w => (Return w, w).

(** [with open(file, 'w') as f: f.write(text)] *)
Definition write_file (file : file_id) (text : pystr) : M unit := fun w =>
  (Return tt,
   match file with
   | DataFile =>
       {| data_file := Some text; results_file := results_file w;
          written := file :: written w; heap := heap w |}
   | ResultsFile =>
       {| data_file := data_file w; results_file := Some text;
          written := file :: written w; heap := heap w |}
   end).

(** A new list object. *)
Definition alloc (l : list StartupRecord) : M ref := fun w =>
  (Return (length (heap w)),
   {| data_file := data_file w; results_file := results_file w;
      written := written w; heap := heap w ++ [l] |}).

(** The present contents of a list object. *)
Definition read (r : ref) : M (list StartupRecord) := fun w =>
  (Return (default [] (heap w !! r)), w).

(** An update of a list object in place. *)
Definition update (r : ref) (f : list StartupRecord -> list StartupRecord)
  : M unit := fun w =>
  (Return tt,
   {| data_file := data_file w; results_file := results_file w;
      written := written w;
      heap := <[r := f (default [] (heap w !! r))]> (heap w) |}).

(** ** The browser, the clock and the process environment *)

(** One search result card, as the driver shows it. A text is [None] when
    [find_element] (or reading the element) raises; the link, when it is
    found, has an [href]. [seen_on] is what
    [datetime.datetime.now().strftime("%Y-%m-%d")] gives when the card is
    handled. *)
Record Card := {
  span_text : option pystr;
  summary_text : option pystr;
  link_href : option pystr;
  seen_on : pystr
}.

(** The steps of the login, each [true] when it goes through. *)
Record LoginPage := {
  page_opens : bool;
  form_appears : bool;
  fields_filled : bool;
  submit_clicked : bool;
  nav_appears : bool
}.

(** What the outside gives to a run. [chrome_starts]: [webdriver.Chrome]
    returns a driver. [search_page]: the cards found, [None] when loading
    or scrolling the page or finding the cards raises. [quit_ok]:
    [driver.quit()] returns. [mock_date1], [mock_date2], [today]: the
    clock readings taken for the two sample records and for the report. *)
Record Env := {
  chrome_starts : bool;
  login_page : LoginPage;
  search_page : option (list Card);
  quit_ok : bool;
  mock_date1 : pystr;
  mock_date2 : pystr;
  today : pystr
}.

(** ** The class [LinkedInScraper] *)

(** [setup_driver] *)
Definition setup_driver (env : Env) : M unit :=
  if chrome_starts env then mret tt else raise WebDriverException.

(** [driver.quit()] *)
Definition driver_quit (env : Env) : M unit :=
  if quit_ok env then mret tt else raise WebDriverException.

(** [login_to_linkedin]: every step is inside [try]; the first one that
    raises makes the method return [False]. *)
Definition login_to_linkedin (p : LoginPage) : bool :=
  page_opens p && form_appears p && fields_filled p && submit_clicked p
  && nav_appears p.

(** The test of lines 111-112 on a description. *)
Definition qualifies (company_description : pystr) : bool :=
  (str_in (lit "AI") company_description
   || str_in (lit "artificial intelligence") (lower company_description))
  && (str_in (lit "Y Combinator") company_description
      || str_in (lit "YC") company_description).

(** The body of the loop over the cards (lines 105-131): [startups] after
    the card has been handled. *)
Definition scan_card (startups : list StartupRecord) (card : Card)
  : list StartupRecord :=
  match span_text card with
  | None => startups
  | Some span =>
      let company_name := strip span in
      match summary_text card with
      | None => startups
      | Some summary =>
          let company_description := strip summary in
          if qualifies company_description then
            let company_url :=
              match link_href card with
              | Some href => href
              | None => []
              end in
            startups ++ [ {| name := company_name;
                             description := company_description;
                             url := company_url;
                             found_date := seen_on card |} ]
          else startups
      end
  end.

(** [search_yc_ai_startups]: an exception before the loop returns the
    empty list collected so far. *)
Definition search_yc_ai_startups (page : option (list Card))
  : list StartupRecord :=
  match page with
  | None => []
  | Some company_cards => fold_left scan_card company_cards []
  end.

(** One turn of the merge loop (lines 154-157) on the pair of
    [existing_startups] and [existing_names]. *)
Definition merge_step (st : list StartupRecord * list pystr)
  (startup : StartupRecord) : list StartupRecord * list pystr :=
  if decide (name startup ∈ st.2) then st
  else (st.1 ++ [startup], st.2 ++ [name startup]).

(** Lines 153-157: [existing_startups] after the loop. *)
Definition merge (existing_startups startups : list StartupRecord)
  : list StartupRecord :=
  (fold_left merge_step startups
     (existing_startups, map name existing_startups)).1.

(** Lines 142-150: the list the store file holds. *)
Definition load_store : M (list StartupRecord) :=
  w ← get_world;
  match data_file w with
  | None => mret []
  | Some text =>
      match Json.loads text with
      | Json.DecodeError => mret []
      | Json.OutOfFuel => raise RecursionError
      | Json.Parsed v _ =>
          match store_of_json v with
          | Some l => mret l
          | None => raise Unmodelled
          end
      end
  end.

(** [save_startups_data]: the list object it returns is the one it built
    from the store file and appended to. *)
Definition save_startups_data (startups : list StartupRecord) : M ref :=
  loaded ← load_store;
  existing_startups ← alloc loaded;
  update existing_startups (fun l => merge l startups);;
  l ← read existing_startups;
  write_file DataFile (Json.dumps (store_to_json l));;
  mret existing_startups.

Definition line (s : string) : pystr := lit s ++ [10%N].

(** The head of the report, up to the table's rule. *)
Definition readme_head (today : pystr) : pystr :=
  line "# Y Combinator AI Startup Tracker"
  ++ line ""
  ++ line "Automatically updated list of AI startups backed by Y Combinator found on LinkedIn."
  ++ line ""
  ++ lit "Last updated: " ++ today ++ [10%N]
  ++ line ""
  ++ line "## Latest AI Startups"
  ++ line ""
  ++ line "| Name | Description | Found Date | LinkedIn |"
  ++ line "|------|-------------|------------|----------|".

(** The fixed text after the table. *)
Definition readme_foot : pystr :=
  line ""
  ++ line "## How It Works"
  ++ line ""
  ++ line "This repository uses GitHub Actions to automatically:"
  ++ line "1. Search LinkedIn for AI startups backed by Y Combinator"
  ++ line "2. Update this README with the latest findings"
  ++ line "3. Run this process daily"
  ++ line ""
  ++ line "## Note"
  ++ line ""
  ++ line "This tool is for educational purposes only. Please respect LinkedIn's terms of service and rate limits.".

(** Line 193 *)
Definition short_desc (description : pystr) : pystr :=
  if 100 <? len description then slice_to 100 description ++ lit "..."
  else description.

(** Line 196 *)
Definition link (url : pystr) : pystr :=
  if truthy url then lit "[Profile](" ++ url ++ lit ")" else lit "N/A".

(** Line 198: the table row of one startup. *)
Definition table_row (startup : StartupRecord) : pystr :=
  lit "| " ++ name startup ++ lit " | " ++ short_desc (description startup)
  ++ lit " | " ++ found_date startup ++ lit " | " ++ link (url startup)
  ++ lit " |" ++ [10%N].

(** [update_readme]: sorts the list object it is given, then writes the
    report from it. *)
Definition update_readme (today : pystr) (startups : ref) : M unit :=
  update startups (sort_reverse found_date);;
  sorted ← read startups;
  let readme_content :=
    fold_left (fun content startup => content ++ table_row startup)
      sorted (readme_head today) in
  let readme_content := readme_content ++ readme_foot in
  write_file ResultsFile readme_content.

(** The sample batch of lines 225-238. *)
Definition mock_startups (env : Env) : list StartupRecord :=
  [ {| name := lit "AI Builder";
       description := lit "Y Combinator W2024 batch. We're building AI-powered tools for software development.";
       url := lit "https://www.linkedin.com/company/aibuilder";
       found_date := mock_date1 env |};
    {| name := lit "DataSense AI";
       description := lit "YC S2023 batch. Enterprise AI solutions for data analytics.";
       url := lit "https://www.linkedin.com/company/datasense-ai";
       found_date := mock_date2 env |} ].

(** Truth value of a credential read by [os.environ.get]: [None] and the
    empty string are false. *)
Definition provided (credential : option pystr) : bool :=
  match credential with
  | Some s => truthy s
  | None => false
  end.

(** [run] *)
Definition run (env : Env) (linkedin_username linkedin_password : option pystr)
  : M unit :=
  if negb (provided linkedin_username) || negb (provided linkedin_password)
  then
    all_startups ← save_startups_data (mock_startups env);
    update_readme (today env) all_startups
  else
    try_except
      (setup_driver env;;
       if negb (login_to_linkedin (login_page env)) then driver_quit env
       else
         let startups := search_yc_ai_startups (search_page env) in
         driver_quit env;;
         all_startups ← save_startups_data startups;
         update_readme (today env) all_startups)
      (fun _ => if chrome_starts env then driver_quit env else mret tt).

(** ** Vocabulary of the properties *)

(** [needle] occurs in [hay]: some text, then [needle], then some text. *)
Definition occurs (needle hay : pystr) : Prop :=
  exists before after, hay = before ++ needle ++ after.

(** The record a card yields when both of its texts can be read. *)
Definition card_record (card : Card) : option StartupRecord :=
  match span_text card, summary_text card with
  | Some span, Some summary =>
      Some {| name := strip span;
              description := strip summary;
              url := default [] (link_href card);
              found_date := seen_on card |}
  | _, _ => None
  end.

(** The names of a collection, in order. *)
Definition names (l : list StartupRecord) : list pystr := name <$> l.

(** The records of [I] whose name occurs neither in [E] nor earlier in
    [I], in their order within [I]. *)
Definition new_records (E I : list StartupRecord) : list StartupRecord :=
  omap (fun ir : nat * StartupRecord =>
          if decide ((name ir.2 ∉ names E) /\ (name ir.2 ∉ names (take ir.1 I)))
          then Some ir.2 else None)
       (imap pair I).

(** The record a collection holds under a name: the first one of that
    name. *)
Definition stored (n : pystr) (l : list StartupRecord) : option StartupRecord :=
  List.find (fun r => bool_decide (name r = n)) l.

(** [x] may stand before [y] in a sequence ascending by [key]: the key of
    [y] is not below that of [x]. And the same for a descending one. *)
Definition key_asc {A} (key : A -> pystr) (x y : A) : Prop :=
  str_lt (key y) (key x) = false.

Definition key_desc {A} (key : A -> pystr) (x y : A) : Prop :=
  str_lt (key x) (key y) = false.

(** [a] is dated no earlier than [b], in the order of [str]. *)
Definition not_older (a b : StartupRecord) : Prop :=
  key_desc found_date a b.

(** The records of a sequence found on a given date, in their order. *)
Definition found_on (date : pystr) (l : list StartupRecord) : list StartupRecord :=
  List.filter (fun r => bool_decide (found_date r = date)) l.

(** The text of the report for a sequence of records, in the order given. *)
Definition report (today : pystr) (rows : list StartupRecord) : pystr :=
  readme_head today ++ concat (map table_row rows) ++ readme_foot.

(** The store file is missing, or its text is not valid JSON: [json.loads]
    raises [JSONDecodeError] on it. *)
Definition store_missing_or_corrupt (w : World) : Prop :=
  data_file w = None
  \/ exists text, data_file w = Some text /\ Json.loads text = Json.DecodeError.

(** The batch a run hands to the merge, when it gets that far: the sample
    batch without credentials; with them, what the search collected, once
    the browser has started, the login has gone through and the browser
    has been closed. *)
Definition batch_merged (env : Env) (username password : option pystr)
  : option (list StartupRecord) :=
  if negb (provided username) || negb (provided password)
  then Some (mock_startups env)
  else if chrome_starts env && login_to_linkedin (login_page env) && quit_ok env
  then Some (search_yc_ai_startups (search_page env))
  else None.

(** Sample values for the examples. *)
Definition sample (n d date : string) : StartupRecord :=
  {| name := lit n; description := lit d; url := []; found_date := lit date |}.

Definition sample_world (store : option pystr) (objects : list (list StartupRecord))
  : World :=
  {| data_file := store; results_file := None; written := []; heap := objects |}.

Definition sample_login (ok : bool) : LoginPage :=
  {| page_opens := true; form_appears := true; fields_filled := true;
     submit_clicked := true; nav_appears := ok |}.

Definition sample_env (starts login_ok : bool) : Env :=
  {| chrome_starts := starts; login_page := sample_login login_ok;
     search_page := Some [ {| span_text := Some (lit " Acme ");
                              summary_text := Some (lit "YC W21. AI for tax.");
                              link_href := None;
                              seen_on := lit "2024-05-01" |} ];
     quit_ok := true;
     mock_date1 := lit "2024-01-01"; mock_date2 := lit "2024-01-02";
     today := lit "2024-01-03" |}.

Definition older_record : StartupRecord := sample "Older" "YC AI" "2024-01-01".
Definition newer_record : StartupRecord := sample "Newer" "YC AI" "2024-01-02".

(** High and low surrogate code points. *)
Definition is_high (c : N) : bool := ((55296 <=? c) && (c <=? 56319))%N.

Definition is_low (c : N) : bool := ((56320 <=? c) && (c <=? 57343))%N.

(** A [str] the store file can hold as it is: code points up to U+10FFFF,
    and no high surrogate with a low surrogate right after it (two such
    code points are written as the escape of the one character they
    encode, and read back as that character). Text made of characters is
    of this kind, and so is text with a stray surrogate. *)
Fixpoint valid_text (s : pystr) : Prop :=
  match s with
  | [] => True
  | c :: s' =>
      (c < 1114112)%N
      /\ (is_high c = true ->
          match s' with
          | c' :: _ => is_low c' = false
          | [] => True
          end)
      /\ valid_text s'
  end.

(** A record whose four fields hold such text. *)
Definition valid_record (r : StartupRecord) : Prop :=
  valid_text (name r) /\ valid_text (description r)
  /\ valid_text (url r) /\ valid_text (found_date r).

(** The text does not start with the [\u] escape of a low surrogate. *)
Definition no_low_escape (tl : pystr) : Prop :=
  forall g3 g2 g1 g0 s4,
    tl = (92 :: 117 :: g3 :: g2 :: g1 :: g0 :: s4)%N ->
    exists uni2, Json.decode_hex4 g3 g2 g1 g0 = Some uni2 /\ is_low uni2 = false.

(** The text of one record inside the array of the store file. *)
Definition record_text (r : StartupRecord) : pystr :=
  Json.encode 1 (record_to_json r).

(** The text that follows the first record: a comma, a new line and the
    text of each further record. *)
Fixpoint more_records (l : list StartupRecord) : pystr :=
  match l with
  | [] => []
  | r :: l' =>
      lit "," ++ Json.newline_indent 1 ++ record_text r ++ more_records l'
  end.

(** A decoder's result is within budget and, when it is a value, leaves
    less text than [n] characters. *)
Definition consumes {A} (res : Json.result A) (n : nat) : Prop :=
  match res with
  | Json.Parsed _ rest => length rest < n
  | Json.DecodeError => True
  | Json.OutOfFuel => False
  end.

(** A Unicode scalar value: a code point that is not a surrogate. *)
Definition scalar (c : N) : Prop :=
  (c < 1114112)%N /\ ~ (55296 <= c <= 57343)%N.

(** Neither the first nor the last code point of the text is white
    space. *)
Definition no_outer_space (s : pystr) : Prop :=
  (forall c t, s = c :: t -> is_whitespace c = false)
  /\ (forall t c, s = t ++ [c] -> is_whitespace c = false).


(** A day of the calendar, as [datetime.datetime.now()] gives it. *)
Record Day := {
  year : N;
  month : N;
  day : N
}.

(** A zero-padded decimal number of two and of four digits, as [%m],
    [%d] and [%Y] (for a year of four digits) write it. *)
Definition two_digits (n : N) : pystr :=
  [48 + n / 10; 48 + n mod 10]%N.

Definition four_digits (n : N) : pystr :=
  [48 + n / 1000; 48 + n / 100 mod 10; 48 + n / 10 mod 10; 48 + n mod 10]%N.

(** [strftime("%Y-%m-%d")] *)
Definition strftime_ymd (d : Day) : pystr :=
  four_digits (year d) ++ [45%N] ++ two_digits (month d) ++ [45%N]
  ++ two_digits (day d).

(** A day [datetime] can hold whose year is written with four digits. *)
Definition calendar_day (d : Day) : Prop :=
  (1000 <= year d <= 9999)%N /\ (1 <= month d <= 12)%N /\ (1 <= day d <= 31)%N.

(** Order of days: by year, then month, then day. *)
Definition day_compare (a b : Day) : comparison :=
  match (year a ?= year b)%N with
  | Eq =>
      match (month a ?= month b)%N with
      | Eq => (day a ?= day b)%N
      | c => c
      end
  | c => c
  end.

(** The store file is as the program leaves it: absent, before the first
    run, with nothing collected; or holding the text the program saves
    for the collection [existing]. *)
Definition store_as_saved (w : World) (existing : list StartupRecord) : Prop :=
  (data_file w = None /\ existing = [])
  \/ (data_file w = Some (Json.dumps (store_to_json existing))
      /\ Forall valid_record existing).

(** * Properties *)

(** ** Substrings *)

Section Substrings.

Lemma startswith_prefix p s :
  startswith p s = true <-> exists t, s = p ++ t.
Proof.
  revert s; induction p as [|a p IH]; intros s; simpl.
  - split; [intros _; by exists s | done].
  - destruct s as [|b s].
    + split; [done | intros [t Ht]; discriminate].
    + rewrite andb_true_iff, N.eqb_eq, IH. split.
      * intros [-> [t ->]]. by exists t.
      * intros [t Ht]. injection Ht as -> ->. eauto.
Qed.

Lemma str_in_occurs needle hay :
  str_in needle hay = true <-> occurs needle hay.
Proof.
  unfold occurs. induction hay as [|c hay IH]; simpl.
  - rewrite orb_false_r, startswith_prefix. split.
    + intros [t Ht]. by exists [], t.
    + intros [before [after H]]. symmetry in H.
      apply app_eq_nil in H as [-> H]. by exists after.
  - rewrite orb_true_iff, startswith_prefix, IH. split.
    + intros [[t Ht] | [before [after Ht]]].
      * by exists [], t.
      * exists (c :: before), after. by rewrite Ht.
    + intros [[|b before] [after Ht]].
      * left. by exists after.
      * right. injection Ht as _ ->. by exists before, after.
Qed.

Lemma occurs_extend needle hay p s :
  occurs needle hay -> occurs needle (p ++ hay ++ s).
Proof.
  intros [before [after ->]]. exists (p ++ before), (after ++ s).
  by rewrite <- !app_assoc.
Qed.

Lemma lower_app a b : lower (a ++ b) = lower a ++ lower b.
Proof. apply map_app. Qed.

Lemma qualifies_occurs d :
  qualifies d = true <->
  (occurs (lit "AI") d \/ occurs (lit "artificial intelligence") (lower d))
  /\ (occurs (lit "Y Combinator") d \/ occurs (lit "YC") d).
Proof.
  unfold qualifies.
  by rewrite andb_true_iff, !orb_true_iff, !str_in_occurs.
Qed.

End Substrings.

(** ** The batch a search collects *)

Section Search.

Lemma scan_card_record startups card :
  scan_card startups card =
  startups ++ match card_record card with
              | Some r => if qualifies (description r) then [r] else []
              | None => []
              end.
Proof.
  unfold scan_card, card_record.
  destruct (span_text card), (summary_text card); simpl;
    rewrite ?app_nil_r; try done.
  destruct (qualifies _); rewrite ?app_nil_r; done.
Qed.

Lemma search_loop_filter cards startups :
  fold_left scan_card cards startups =
  startups ++ List.filter (fun r => qualifies (description r))
                (omap card_record cards).
Proof.
  revert startups; induction cards as [|card cards IH]; intros startups; simpl.
  - by rewrite app_nil_r.
  - rewrite IH, scan_card_record, <- app_assoc. f_equal.
    destruct (card_record card) as [r|]; simpl; [|done].
    by destruct (qualifies (description r)).
Qed.

Lemma search_qualified page r :
  In r (search_yc_ai_startups page) -> qualifies (description r) = true.
Proof.
  destruct page as [cards|]; simpl; [|done].
  rewrite search_loop_filter. simpl. rewrite filter_In. tauto.
Qed.

End Search.

(** C1. The qualifier accepts a description exactly when it holds "AI" or,
    once lower-cased, "artificial intelligence", and also holds
    "Y Combinator" or "YC"; the batch a search returns is made of the
    readable cards whose description passes this test, in the order of the
    cards, so every record in it passes. *)
Theorem qualifier_accepts_iff_ai_and_yc :
  (forall d,
     qualifies d = true <->
     (occurs (lit "AI") d \/ occurs (lit "artificial intelligence") (lower d))
     /\ (occurs (lit "Y Combinator") d \/ occurs (lit "YC") d))
  /\ (forall cards,
        search_yc_ai_startups (Some cards) =
        List.filter (fun r => qualifies (description r))
          (omap card_record cards))
  /\ (forall page r,
        In r (search_yc_ai_startups page) ->
        qualifies (description r) = true).
Proof.
  split; [exact qualifies_occurs|]. split; [|exact search_qualified].
  intros cards. unfold search_yc_ai_startups. by rewrite search_loop_filter.
Qed.

(** C10. Text added before and after a description that qualifies leaves
    it qualifying. *)
Theorem qualifier_monotone_under_extension d p s :
  qualifies d = true -> qualifies (p ++ d ++ s) = true.
Proof.
  rewrite !qualifies_occurs, !lower_app.
  intros [[H|H] [H'|H']]; split; auto using occurs_extend.
Qed.

Lemma qualifier_monotone_under_extension_witness :
  qualifies (lit "YC S2023 batch. Enterprise AI solutions.") = true
  /\ qualifies (lit "New: " ++ lit "YC S2023 batch. Enterprise AI solutions."
                ++ lit " Hiring.") = true.
Proof.
  split; [reflexivity|].
  apply (qualifier_monotone_under_extension
           (lit "YC S2023 batch. Enterprise AI solutions.")
           (lit "New: ") (lit " Hiring.")).
  reflexivity.
Defined.

(** ** The merge *)

Section Merge.
Implicit Types E I : list StartupRecord.

Lemma new_records_snoc E I r :
  new_records E (I ++ [r]) =
  new_records E I ++
  (if decide ((name r ∈ names E) \/ (name r ∈ names I)) then [] else [r]).
Proof.
  unfold new_records. rewrite imap_app, omap_app. f_equal.
  - apply list_omap_ext. apply Forall2_same_length_lookup_2; [done|].
    intros i [j x] [j' x'] H1 H2. rewrite H1 in H2. injection H2 as <- <-.
    apply list_lookup_imap_Some in H1 as (y & Hy & [= -> ->]). simpl.
    rewrite take_app_le; [done|]. apply lookup_lt_Some in Hy. lia.
  - simpl. rewrite Nat.add_0_r, take_app_length.
    destruct (decide (_ /\ _)) as [[H1 H2]|H]; destruct (decide (_ \/ _)) as [H'|H'];
      try done; tauto.
Qed.

Lemma names_new_records E I n :
  n ∈ names (E ++ new_records E I) <-> (n ∈ names E) \/ (n ∈ names I).
Proof.
  unfold names. induction I as [|r I IH] using rev_ind.
  - unfold new_records. simpl. rewrite app_nil_r, elem_of_nil. tauto.
  - rewrite new_records_snoc, app_assoc, !fmap_app, !elem_of_app.
    rewrite fmap_app, elem_of_app in IH. rewrite IH. unfold names.
    destruct (decide _) as [H|H]; simpl;
      rewrite ?elem_of_nil, ?list_elem_of_singleton.
    + split; [tauto|]. intros [?|[?| ->]]; tauto.
    + tauto.
Qed.

Lemma merge_loop_new_records E I :
  fold_left merge_step I (E, names E) =
  (E ++ new_records E I, names (E ++ new_records E I)).
Proof.
  induction I as [|r I IH] using rev_ind.
  - unfold new_records. simpl. by rewrite app_nil_r.
  - rewrite fold_left_app, IH. simpl. unfold merge_step. simpl.
    rewrite new_records_snoc.
    destruct (decide (name r ∈ names (E ++ new_records E I))) as [H|H];
      destruct (decide (_ \/ _)) as [H'|H'];
      rewrite names_new_records in H; try tauto.
    + by rewrite app_nil_r.
    + rewrite app_assoc. f_equal. unfold names. by rewrite !fmap_app.
Qed.

Lemma merge_new_records E I : merge E I = E ++ new_records E I.
Proof. unfold merge. fold (names E). by rewrite merge_loop_new_records. Qed.

Lemma merge_loop_known I acc :
  Forall (fun r => name r ∈ names acc) I ->
  fold_left merge_step I (acc, names acc) = (acc, names acc).
Proof.
  induction 1 as [|r I Hr _ IH]; simpl; [done|].
  unfold merge_step at 2. simpl. by rewrite decide_True.
Qed.

Lemma stored_app_l n E l :
  n ∈ names E -> stored n (E ++ l) = stored n E.
Proof.
  unfold stored, names. induction E as [|r E IH]; simpl.
  - by intros ?%elem_of_nil.
  - rewrite elem_of_cons. intros [-> |H].
    + by rewrite bool_decide_eq_true_2.
    + destruct (bool_decide _); auto.
Qed.

End Merge.

(** C2. The merge keeps the existing collection as it is, at the front,
    and appends the incoming records whose name occurs neither in the
    existing collection nor earlier in the batch, in the order of the
    batch; a record stored under a name stays the one stored under it. *)
Theorem merge_keeps_existing_appends_new E I :
  merge E I = E ++ new_records E I
  /\ (forall i r, E !! i = Some r -> merge E I !! i = Some r)
  /\ (forall n, n ∈ names E -> stored n (merge E I) = stored n E).
Proof.
  rewrite merge_new_records. split; [done|]. split.
  - intros i r H. rewrite lookup_app_l; [done|]. by eapply lookup_lt_Some.
  - intros n H. by apply stored_app_l.
Qed.

(** C3. Merging the same batch a second time changes nothing. *)
Theorem merge_idempotent A B : merge (merge A B) B = merge A B.
Proof.
  unfold merge at 1. fold (names (merge A B)).
  rewrite merge_loop_known; [done|].
  apply Forall_forall. intros r Hr. rewrite merge_new_records.
  apply names_new_records. right. unfold names.
  by apply list_elem_of_fmap_2.
Qed.

(** ** The order of [str] *)

Section StrOrder.

Lemma str_compare_eq a b : str_compare a b = Eq -> a = b.
Proof.
  revert b; induction a as [|x a IH]; intros [|y b]; simpl; try done.
  destruct (N.compare_spec x y) as [-> | |]; try done.
  intros H. f_equal. by apply IH.
Qed.

Lemma str_compare_antisym a b : str_compare b a = CompOpp (str_compare a b).
Proof.
  revert b; induction a as [|x a IH]; intros [|y b]; simpl; try done.
  rewrite (N.compare_antisym x y).
  destruct (x ?= y)%N; simpl; auto.
Qed.

Lemma str_compare_lt_trans a b c :
  str_compare a b = Lt -> str_compare b c = Lt -> str_compare a c = Lt.
Proof.
  revert b c; induction a as [|x a IH]; intros [|y b] [|z c]; simpl; try done.
  destruct (N.compare_spec x y) as [-> | Hxy | Hxy]; try done.
  - destruct (y ?= z)%N; try done. apply IH.
  - intros _. destruct (N.compare_spec y z) as [-> | Hyz | Hyz]; try done.
    + intros _. by apply N.compare_lt_iff in Hxy as ->.
    + intros _. assert (x < z)%N as ->%N.compare_lt_iff by lia. done.
Qed.

Lemma str_lt_asym a b : str_lt a b = true -> str_lt b a = false.
Proof.
  unfold str_lt. rewrite (str_compare_antisym a b).
  by destruct (str_compare a b).
Qed.

Lemma str_lt_irrefl a : str_lt a a = false.
Proof.
  destruct (str_lt a a) eqn:H; [|done]. by rewrite (str_lt_asym _ _ H) in H.
Qed.

(** If [c] is below [a], anything in between is above [c] or below [a]. *)
Lemma str_lt_cotrans a b c :
  str_lt c a = true -> str_lt c b = true \/ str_lt b a = true.
Proof.
  unfold str_lt. intros Hca.
  destruct (str_compare c b) eqn:Hcb; auto.
  - apply str_compare_eq in Hcb as ->. auto.
  - right. rewrite (str_compare_antisym b c) in Hcb.
    destruct (str_compare b c) eqn:Hbc; try done.
    destruct (str_compare c a) eqn:Hca'; try done.
    by rewrite (str_compare_lt_trans _ _ _ Hbc Hca').
Qed.

End StrOrder.

(** ** [list.sort] by a key *)

Section SortFacts.
Context {A : Type} (key : A -> pystr).


Lemma insert_sorted_perm x l : insert_sorted key x l ≡ₚ x :: l.
Proof.
  induction l as [|y l IH]; simpl; [done|].
  destruct (str_lt _ _); [|done]. rewrite IH. apply Permutation_swap.
Qed.

Lemma sort_asc_perm l : sort_asc key l ≡ₚ l.
Proof.
  induction l as [|x l IH]; simpl; [done|].
  by rewrite insert_sorted_perm, IH.
Qed.

Lemma insert_sorted_sorted x l :
  StronglySorted (key_asc key) l -> StronglySorted (key_asc key) (insert_sorted key x l).
Proof.
  induction 1 as [|y l Hl IH Hy]; simpl.
  - repeat constructor.
  - destruct (str_lt (key y) (key x)) eqn:Hyx.
    + constructor; [done|].
      rewrite Forall_forall. intros z Hz.
      rewrite insert_sorted_perm in Hz.
      apply elem_of_cons in Hz as [-> | Hz].
      * by apply str_lt_asym.
      * rewrite Forall_forall in Hy. by apply Hy.
    + constructor; [by constructor|].
      constructor; [done|].
      rewrite Forall_forall in *. intros z Hz.
      destruct (str_lt (key z) (key x)) eqn:Hzx; [|done].
      destruct (str_lt_cotrans (key x) (key y) (key z) Hzx) as [H|H].
      * by rewrite (Hy z Hz) in H.
      * by rewrite Hyx in H.
Qed.

Lemma sort_asc_sorted l : StronglySorted (key_asc key) (sort_asc key l).
Proof.
  induction l as [|x l IH]; simpl; [constructor|].
  by apply insert_sorted_sorted.
Qed.

Lemma insert_sorted_filter k x l :
  List.filter (fun r => bool_decide (key r = k)) (insert_sorted key x l) =
  List.filter (fun r => bool_decide (key r = k)) (x :: l).
Proof.
  induction l as [|y l IH]; [done|].
  cbn [insert_sorted]. destruct (str_lt (key y) (key x)) eqn:Hyx; [|done].
  cbn [List.filter] in *. rewrite IH.
  destruct (bool_decide (key x = k)) eqn:Hx, (bool_decide (key y = k)) eqn:Hy;
    try done.
  apply bool_decide_eq_true_1 in Hx, Hy. rewrite Hx, Hy in Hyx.
  by rewrite str_lt_irrefl in Hyx.
Qed.

Lemma sort_asc_filter k l :
  List.filter (fun r => bool_decide (key r = k)) (sort_asc key l) =
  List.filter (fun r => bool_decide (key r = k)) l.
Proof.
  induction l as [|x l IH]; [done|].
  cbn [sort_asc]. rewrite insert_sorted_filter. cbn [List.filter].
  by rewrite IH.
Qed.

Lemma sorted_rev l : StronglySorted (key_asc key) l -> StronglySorted (key_desc key) (rev l).
Proof.
  induction 1 as [|x l Hl IH Hx]; simpl; [constructor|].
  apply StronglySorted_app. split; [|split; [done|repeat constructor]].
  intros y z Hy ->%list_elem_of_singleton.
  rewrite Forall_forall in Hx. apply Hx.
  by apply list_elem_of_In, in_rev, list_elem_of_In.
Qed.

Lemma sort_reverse_perm l : sort_reverse key l ≡ₚ l.
Proof.
  unfold sort_reverse.
  by rewrite <- Permutation_rev, sort_asc_perm, <- Permutation_rev.
Qed.

Lemma sort_reverse_sorted l : StronglySorted (key_desc key) (sort_reverse key l).
Proof. apply sorted_rev, sort_asc_sorted. Qed.

Lemma sort_reverse_filter k l :
  List.filter (fun r => bool_decide (key r = k)) (sort_reverse key l) =
  List.filter (fun r => bool_decide (key r = k)) l.
Proof.
  unfold sort_reverse.
  by rewrite filter_rev, sort_asc_filter, filter_rev, rev_involutive.
Qed.

End SortFacts.

(** ** The report *)

Section Report.

Lemma slice_to_take n s : slice_to n s = take n s.
Proof.
  revert s; induction n as [|n IH]; intros [|c s]; simpl; rewrite ?IH; done.
Qed.

Lemma short_desc_long d :
  100 < length d -> short_desc d = take 100 d ++ lit "...".
Proof.
  intros H. unfold short_desc, len.
  apply Nat.ltb_lt in H as ->. by rewrite slice_to_take.
Qed.

Lemma short_desc_short d : length d <= 100 -> short_desc d = d.
Proof.
  intros H. unfold short_desc, len.
  by apply Nat.ltb_ge in H as ->.
Qed.

Lemma rows_appended (l : list StartupRecord) content :
  fold_left (fun content startup => content ++ table_row startup) l content =
  content ++ concat (map table_row l).
Proof.
  revert content; induction l as [|r l IH]; intros content; simpl.
  - by rewrite app_nil_r.
  - by rewrite IH, <- app_assoc.
Qed.

Lemma update_readme_runs today startups w l :
  heap w !! startups = Some l ->
  update_readme today startups w =
  (Return tt,
   {| data_file := data_file w;
      results_file :=
        Some (readme_head today
              ++ concat (map table_row (sort_reverse found_date l))
              ++ readme_foot);
      written := ResultsFile :: written w;
      heap := <[startups := sort_reverse found_date l]> (heap w) |}).
Proof.
  intros H. unfold update_readme, mbind, M_bind, update, read, write_file.
  cbn [heap data_file results_file written]. rewrite H. cbn [default].
  rewrite list_lookup_insert_eq by (by eapply lookup_lt_Some).
  cbn [default]. by rewrite rows_appended, <- app_assoc.
Qed.

End Report.

(** C5. The rows of the report's table are those of the records sorted by
    found date, latest first, and the sort is stable: the records found on
    one date stand in the order they had in the sequence given. *)
Theorem report_rows_newest_first_and_stable today startups w l :
  heap w !! startups = Some l ->
  let sorted := sort_reverse found_date l in
  results_file (update_readme today startups w).2 =
    Some (readme_head today ++ concat (map table_row sorted) ++ readme_foot)
  /\ sorted ≡ₚ l
  /\ StronglySorted not_older sorted
  /\ (forall date, found_on date sorted = found_on date l).
Proof.
  intros H sorted. rewrite (update_readme_runs _ _ _ _ H). split; [done|].
  split; [apply sort_reverse_perm|]. split; [apply sort_reverse_sorted|].
  intros date. apply sort_reverse_filter.
Qed.

(** C6. The description a row shows is the first 100 characters and
    ["..."] when the description is longer than 100 characters, and the
    description itself otherwise: one of 101 characters is cut, one of 100
    is not. *)
Theorem row_description_cut_beyond_100 (r : StartupRecord) :
  exists shown,
    table_row r =
      lit "| " ++ name r ++ lit " | " ++ shown ++ lit " | " ++ found_date r
      ++ lit " | " ++ link (url r) ++ lit " |" ++ [10%N]
    /\ (100 < length (description r) ->
        shown = take 100 (description r) ++ lit "...")
    /\ (length (description r) <= 100 -> shown = description r)
    /\ (length (description r) = 101 ->
        shown = take 100 (description r) ++ lit "..."
        /\ length shown = 103)
    /\ (length (description r) = 100 -> shown = description r).
Proof.
  exists (short_desc (description r)). split; [done|].
  split; [apply short_desc_long|]. split; [apply short_desc_short|]. split.
  - intros H. rewrite short_desc_long by lia. split; [done|].
    by rewrite length_app, length_take, H.
  - intros H. apply short_desc_short. lia.
Qed.

(** ** A run *)

Section Run.

Lemma heap_lookup_new (h : list (list StartupRecord)) l :
  (h ++ [l]) !! length h = Some l.
Proof. by apply list_lookup_middle. Qed.

Lemma heap_insert_new (h : list (list StartupRecord)) l l' :
  <[length h := l']> (h ++ [l]) = h ++ [l'].
Proof.
  rewrite insert_app_r_alt by done. by rewrite Nat.sub_diag.
Qed.

Lemma load_store_missing_or_corrupt w :
  store_missing_or_corrupt w -> load_store w = (Return [], w).
Proof.
  unfold load_store, mbind, M_bind, get_world.
  intros [H | (text & H & Herr)]; rewrite H; [done|]. by rewrite Herr.
Qed.

Lemma save_startups_data_runs startups w existing :
  load_store w = (Return existing, w) ->
  save_startups_data startups w =
  (Return (length (heap w)),
   {| data_file := Some (Json.dumps (store_to_json (merge existing startups)));
      results_file := results_file w;
      written := DataFile :: written w;
      heap := heap w ++ [merge existing startups] |}).
Proof.
  intros H. unfold save_startups_data, mbind at 1, M_bind at 1. rewrite H.
  unfold mbind, M_bind, alloc, update, read, write_file, mret, M_ret.
  cbn [heap data_file results_file written].
  rewrite heap_lookup_new. cbn [default].
  by rewrite heap_insert_new, heap_lookup_new.
Qed.

(** Saving, then rendering: the store file holds the merged collection in
    merge order, the report shows it sorted, and the one list object made
    on the way ends up sorted. *)
Lemma save_then_render startups today w existing :
  load_store w = (Return existing, w) ->
  (all_startups ← save_startups_data startups;
   update_readme today all_startups) w =
  (Return tt,
   {| data_file := Some (Json.dumps (store_to_json (merge existing startups)));
      results_file :=
        Some (report today (sort_reverse found_date (merge existing startups)));
      written := ResultsFile :: DataFile :: written w;
      heap := heap w ++ [sort_reverse found_date (merge existing startups)] |}).
Proof.
  intros H. unfold mbind at 1, M_bind at 1.
  rewrite (save_startups_data_runs _ _ _ H).
  erewrite update_readme_runs by apply heap_lookup_new.
  cbn [heap data_file results_file written].
  by rewrite heap_insert_new.
Qed.

Lemma run_reaches_merge env username password w existing batch :
  batch_merged env username password = Some batch ->
  load_store w = (Return existing, w) ->
  run env username password w =
  (Return tt,
   {| data_file := Some (Json.dumps (store_to_json (merge existing batch)));
      results_file :=
        Some (report (today env) (sort_reverse found_date (merge existing batch)));
      written := ResultsFile :: DataFile :: written w;
      heap := heap w ++ [sort_reverse found_date (merge existing batch)] |}).
Proof.
  unfold batch_merged, run. intros Hb Hload.
  destruct (negb (provided username) || negb (provided password)).
  - injection Hb as <-. by apply save_then_render.
  - destruct (chrome_starts env) eqn:Hc; [|done].
    destruct (login_to_linkedin (login_page env)) eqn:Hl; [|done].
    destruct (quit_ok env) eqn:Hq; [|done]. injection Hb as <-.
    unfold try_except, setup_driver, driver_quit. rewrite Hc, Hq.
    unfold mbind at 1, M_bind at 1, mret at 1, M_ret at 1. cbn [negb].
    unfold mbind at 1, M_bind at 1, mret at 1, M_ret at 1.
    by rewrite (save_then_render _ _ _ _ Hload).
Qed.

Lemma run_stops_without_session env username password w :
  provided username = true -> provided password = true ->
  chrome_starts env = false \/ login_to_linkedin (login_page env) = false ->
  (run env username password w).2 = w.
Proof.
  intros Hu Hp H. unfold run. rewrite Hu, Hp. cbn [negb orb].
  unfold try_except, setup_driver, driver_quit, mbind, M_bind, mret, M_ret, raise.
  destruct (chrome_starts env); [|done].
  destruct H as [H|H]; [done|]. rewrite H. cbn [negb].
  by destruct (quit_ok env).
Qed.

End Run.

(** C9. With credentials given, a browser that does not start or a login
    that does not go through ends the run with nothing written: the store
    file, the report and the record of writes are as they were. *)
Theorem failed_session_writes_nothing env username password w :
  provided username = true -> provided password = true ->
  chrome_starts env = false \/ login_to_linkedin (login_page env) = false ->
  let w' := (run env username password w).2 in
  w' = w
  /\ data_file w' = data_file w
  /\ results_file w' = results_file w
  /\ written w' = written w.
Proof.
  intros Hu Hp H w'. subst w'.
  by rewrite (run_stops_without_session env username password w Hu Hp H).
Qed.

Lemma report_rows_newest_first_and_stable_witness :
  let l := [older_record; newer_record; sample "Third" "YC AI" "2024-01-01"] in
  let w := sample_world None [l] in
  heap w !! 0 = Some l
  /\ (let sorted := sort_reverse found_date l in
      results_file (update_readme (lit "2024-01-03") 0 w).2 =
        Some (readme_head (lit "2024-01-03") ++ concat (map table_row sorted)
              ++ readme_foot)
      /\ sorted ≡ₚ l
      /\ StronglySorted not_older sorted
      /\ (forall date, found_on date sorted = found_on date l)).
Proof.
  intros l w. split; [reflexivity|].
  apply (report_rows_newest_first_and_stable (lit "2024-01-03") 0 w l).
  reflexivity.
Defined.

(** C4, as stated, fails: the renderer sorts the list object it is given.
    A caller's list of an older record followed by a newer one holds the
    newer one first after the call. *)
Lemma renderer_reorders_callers_list :
  let l := [older_record; newer_record] in
  let w := sample_world None [l] in
  heap w !! 0 = Some l
  /\ heap (update_readme (lit "2024-01-03") 0 w).2 !! 0
     = Some [newer_record; older_record]
  /\ heap (update_readme (lit "2024-01-03") 0 w).2 !! 0 <> Some l.
Proof.
  intros l w. split; [reflexivity|]. split; [vm_compute; reflexivity|].
  vm_compute. discriminate.
Qed.

(** C4, amended. The renderer sorts the caller's list object in place:
    after the call it holds the records sorted by found date, latest
    first, equal dates in their former order. No other list object and
    no file but the report is touched, so the store file, saved before,
    keeps the merge order: after saving and rendering it holds the
    merged collection as merged. *)
Theorem renderer_sorts_in_place_store_keeps_merge_order today startups w l :
  heap w !! startups = Some l ->
  let w' := (update_readme today startups w).2 in
  heap w' !! startups = Some (sort_reverse found_date l)
  /\ (forall r, r <> startups -> heap w' !! r = heap w !! r)
  /\ data_file w' = data_file w
  /\ written w' = ResultsFile :: written w
  /\ (forall batch existing w0,
        load_store w0 = (Return existing, w0) ->
        data_file ((all_startups ← save_startups_data batch;
                    update_readme today all_startups) w0).2
        = Some (Json.dumps (store_to_json (merge existing batch)))).
Proof.
  intros H w'. subst w'. rewrite (update_readme_runs _ _ _ _ H).
  cbn [snd heap data_file written].
  split; [apply list_lookup_insert_eq; by eapply lookup_lt_Some|].
  split; [intros r Hr; by apply list_lookup_insert_ne|].
  do 2 (split; [done|]).
  intros batch existing w0 Hload. by rewrite (save_then_render _ _ _ _ Hload).
Qed.

Lemma renderer_sorts_in_place_store_keeps_merge_order_witness :
  let l := [older_record; newer_record] in
  let w := sample_world None [l] in
  heap w !! 0 = Some l
  /\ (let w' := (update_readme (lit "2024-01-03") 0 w).2 in
      heap w' !! 0 = Some (sort_reverse found_date l)
      /\ (forall r, r <> 0 -> heap w' !! r = heap w !! r)
      /\ data_file w' = data_file w
      /\ written w' = ResultsFile :: written w
      /\ (forall batch existing w0,
            load_store w0 = (Return existing, w0) ->
            data_file ((all_startups ← save_startups_data batch;
                        update_readme (lit "2024-01-03") all_startups) w0).2
            = Some (Json.dumps (store_to_json (merge existing batch))))).
Proof.
  intros l w. split; [reflexivity|].
  apply (renderer_sorts_in_place_store_keeps_merge_order (lit "2024-01-03") 0 w l).
  reflexivity.
Defined.

Lemma failed_session_writes_nothing_witness :
  let env := sample_env true false in
  let username := Some (lit "user") in
  let password := Some (lit "secret") in
  let w := sample_world (Some (lit "[]")) [] in
  provided username = true
  /\ provided password = true
  /\ (chrome_starts env = false \/ login_to_linkedin (login_page env) = false)
  /\ (let w' := (run env username password w).2 in
      w' = w
      /\ data_file w' = data_file w
      /\ results_file w' = results_file w
      /\ written w' = written w).
Proof.
  intros env username password w.
  split; [reflexivity|]. split; [reflexivity|].
  split; [right; reflexivity|].
  apply (failed_session_writes_nothing env username password w);
    [reflexivity | reflexivity | right; reflexivity].
Defined.

(** ** The decoder's budget *)

Section Fuel.
Import Json.

Lemma skip_ws_length s : length (skip_ws s) <= length s.
Proof.
  induction s as [|c s IH]; cbn [skip_ws length]; [done|].
  destruct (is_ws c); cbn [length]; lia.
Qed.

Lemma push_length c res s r n :
  push c res = Some (s, r) ->
  (forall s' r', res = Some (s', r') -> length r' < n) -> length r < n.
Proof.
  destruct res as [[s' r']|]; [|done]. intros [= _ <-] H. by eapply H.
Qed.

Lemma scanstring_length_le n : forall s k r,
  length s <= n -> scanstring s = Some (k, r) -> length r < length s.
Proof.
  induction n as [|n IH]; intros s k r Hn.
  - destruct s; cbn [length] in Hn; [by cbn|lia].
  - destruct s as [|c s1]; [by cbn|]. cbn [scanstring length] in *.
    assert (forall t, length t <= length s1 ->
              forall k' r', scanstring t = Some (k', r') -> length r' < S (length s1))
      as Hrec.
    { intros t Ht k' r' E. apply IH in E; lia. }
    destruct (c =? 34)%N; [intros [= _ <-]; lia|].
    destruct (c =? 92)%N.
    + destruct s1 as [|e s2]; [done|].
      destruct (e =? 117)%N.
      * destruct s2 as [|h3 [|h2 [|h1 [|h0 s3]]]]; try done.
        destruct (decode_hex4 h3 h2 h1 h0) as [uni|]; [|done].
        assert (forall t, length t <= length s3 ->
                  push uni (scanstring t) = Some (k, r) ->
                  length r < S (length (e :: h3 :: h2 :: h1 :: h0 :: s3)))
          as Hpush.
        { intros t Ht E. eapply push_length; [exact E|].
          intros k' r' E'. eapply Hrec in E'; cbn [length] in *; lia. }
        destruct s3 as [|b [|u [|g3 [|g2 [|g1 [|g0 s4]]]]]];
          try (by apply Hpush).
        destruct (_ && _ && _ && _); [|by apply Hpush].
        destruct (decode_hex4 g3 g2 g1 g0) as [uni2|]; [|done].
        destruct (_ && _); [|by apply Hpush].
        intros E. eapply push_length; [exact E|].
        intros k' r' E'. eapply Hrec in E'; cbn [length] in *; lia.
      * destruct (backslash e) as [ch|]; [|done].
        intros E. eapply push_length; [exact E|].
        intros k' r' E'. eapply Hrec in E'; cbn [length] in *; lia.
    + destruct (c <? 32)%N; [done|].
      intros E. eapply push_length; [exact E|].
      intros k' r' E'. eapply Hrec in E'; cbn [length] in *; lia.
Qed.

Lemma scanstring_length s k r :
  scanstring s = Some (k, r) -> length r < length s.
Proof. by apply (scanstring_length_le (length s)). Qed.

Lemma span_digits_length s d r : span_digits s = (d, r) -> length r <= length s.
Proof.
  revert d r; induction s as [|c s IH]; intros d r; cbn [span_digits].
  - by intros [= _ <-].
  - destruct (is_digit c); [|by intros [= _ <-]].
    destruct (span_digits s) as [d' r'] eqn:E. intros [= _ <-].
    specialize (IH _ _ eq_refl). cbn [length]. lia.
Qed.

Lemma match_number_length s lexeme r :
  match_number s = Some (lexeme, r) -> length r < length s.
Proof.
  unfold match_number.
  destruct (match_int s) as [[i r0]|] eqn:Hi; [|done].
  destruct (match_frac r0) as [fr r1] eqn:Hf.
  destruct (match_exp r1) as [e r2] eqn:He. intros [= _ <-].
  assert (length r0 < length s) as H0.
  { unfold match_int in Hi.
    destruct s as [|c s']; [done|]. cbn [length].
    destruct (c =? 45)%N.
    - destruct s' as [|c' s2]; [done|].
      destruct (c' =? 48)%N; [injection Hi as _ <-; cbn [length]; lia|].
      destruct (is_digit c'); [|done].
      destruct (span_digits s2) as [d r'] eqn:E. injection Hi as _ <-.
      apply span_digits_length in E. cbn [length]. lia.
    - destruct (c =? 48)%N; [injection Hi as _ <-; lia|].
      destruct (is_digit c); [|done].
      destruct (span_digits s') as [d r'] eqn:E. injection Hi as _ <-.
      apply span_digits_length in E. lia. }
  assert (length r1 <= length r0) as H1.
  { unfold match_frac in Hf. destruct r0 as [|c s1]; [by injection Hf as _ <-|].
    destruct (c =? 46)%N; [|by injection Hf as _ <-].
    destruct (span_digits s1) as [[|d0 d] r'] eqn:E; injection Hf as _ <-;
      [done|]. apply span_digits_length in E. cbn [length]. lia. }
  assert (length r2 <= length r1) as H2.
  { unfold match_exp in He. destruct r1 as [|c s1]; [by injection He as _ <-|].
    destruct (_ || _); [|by injection He as _ <-].
    destruct s1 as [|c' s2].
    - cbn [span_digits] in He. by injection He as _ <-.
    - destruct (_ || _).
      + destruct (span_digits s2) as [[|d0 d] r'] eqn:E; injection He as _ <-;
          [done|]. apply span_digits_length in E. cbn [length]. lia.
      + destruct (span_digits (c' :: s2)) as [[|d0 d] r'] eqn:E;
          injection He as _ <-; [done|].
        apply span_digits_length in E. cbn [length] in *. lia. }
  lia.
Qed.

Lemma decoder_within_budget f :
  (forall s, 2 * length s < f -> consumes (scan_once f s) (length s))
  /\ (forall s values, 2 * length s + 1 < f ->
        consumes (elements f s values) (length s))
  /\ (forall s pairs, 2 * length s + 1 < f ->
        consumes (members f s pairs) (length s)).
Proof.
  induction f as [|f (IHs & IHe & IHm)]; [repeat split; intros; lia|].
  repeat split.
  - intros [|c s'] Hs; [done|]. cbn [scan_once length] in *.
    destruct (c =? 34)%N.
    { destruct (scanstring s') as [[str r]|] eqn:E; [|done].
      apply scanstring_length in E. cbn [consumes]. lia. }
    destruct (c =? 123)%N.
    { pose proof (skip_ws_length s') as Hws.
      destruct (skip_ws s') as [|d r]; [done|]. cbn [length] in Hws.
      destruct (d =? 125)%N; [cbn [consumes]; lia|].
      destruct (d =? 34)%N; [|done].
      specialize (IHm r [] ltac:(lia)).
      destruct (members f r []); cbn [consumes] in *; [lia|done|done]. }
    destruct (c =? 91)%N.
    { pose proof (skip_ws_length s') as Hws.
      destruct (skip_ws s') as [|d r]; [done|]. cbn [length] in Hws.
      destruct (d =? 93)%N; [cbn [consumes]; lia|].
      specialize (IHe (d :: r) [] ltac:(cbn [length]; lia)).
      destruct (elements f (d :: r) []); cbn [consumes length] in *;
        [lia|done|done]. }
    destruct (startswith _ _);
      [cbn [consumes drop]; rewrite length_drop; lia|].
    destruct (startswith _ _);
      [cbn [consumes drop]; rewrite length_drop; lia|].
    destruct (startswith _ _);
      [cbn [consumes drop]; rewrite length_drop; lia|].
    destruct (match_number (c :: s')) as [[lexeme r]|] eqn:E.
    { apply match_number_length in E. cbn [consumes length] in *. lia. }
    destruct (startswith _ _);
      [cbn [consumes drop]; rewrite length_drop; lia|].
    destruct (startswith _ _);
      [cbn [consumes drop]; rewrite length_drop; lia|].
    destruct (startswith _ _);
      [cbn [consumes drop]; rewrite length_drop; lia|].
    done.
  - intros s values Hs. cbn [elements].
    specialize (IHs s ltac:(lia)).
    destruct (scan_once f s) as [v r| |]; cbn [consumes] in *; [|done|done].
    pose proof (skip_ws_length r) as Hws.
    destruct (skip_ws r) as [|c r']; [done|]. cbn [length] in Hws.
    destruct (c =? 93)%N; [cbn [consumes]; lia|].
    destruct (c =? 44)%N; [|done].
    pose proof (skip_ws_length r') as Hws'.
    specialize (IHe (skip_ws r') (values ++ [v]) ltac:(lia)).
    destruct (elements f (skip_ws r') (values ++ [v]));
      cbn [consumes] in *; [lia|done|done].
  - intros s pairs Hs. cbn [members].
    destruct (scanstring s) as [[key r]|] eqn:E; [|done].
    apply scanstring_length in E.
    pose proof (skip_ws_length r) as Hws.
    destruct (skip_ws r) as [|c r1]; [done|]. cbn [length] in Hws.
    destruct (c =? 58)%N; [|done].
    pose proof (skip_ws_length r1) as Hws1.
    specialize (IHs (skip_ws r1) ltac:(lia)).
    destruct (scan_once f (skip_ws r1)) as [v r2| |];
      cbn [consumes] in *; [|done|done].
    pose proof (skip_ws_length r2) as Hws2.
    destruct (skip_ws r2) as [|d r3]; [done|]. cbn [length] in Hws2.
    destruct (d =? 125)%N; [cbn [consumes]; lia|].
    destruct (d =? 44)%N; [|done].
    pose proof (skip_ws_length r3) as Hws3.
    destruct (skip_ws r3) as [|q r4]; [done|]. cbn [length] in Hws3.
    destruct (q =? 34)%N; [|done].
    specialize (IHm r4 (pairs ++ [(key, v)]) ltac:(lia)).
    destruct (members f r4 (pairs ++ [(key, v)]));
      cbn [consumes] in *; [lia|done|done].
Qed.

(** [loads] gives the decoder a budget it cannot use up: it returns a
    value or raises [JSONDecodeError]. *)
Lemma loads_has_fuel s : loads s <> OutOfFuel.
Proof.
  unfold loads. destruct (startswith _ s); [done|].
  pose proof (skip_ws_length s) as Hws.
  destruct (decoder_within_budget (2 * length s + 1)) as (H & _ & _).
  specialize (H (skip_ws s) ltac:(lia)).
  destruct (scan_once _ _) as [v r| |]; [|done|done].
  by destruct (skip_ws r).
Qed.

End Fuel.

(** ** Strings in the store file *)

(** Arithmetic on [N] with division and remainder by constants. *)
Ltac divlia := zify; Z.to_euclidean_division_equations; lia.

Section JsonStrings.
Import Json.

Lemma hexval_hexdigit d : (d < 16)%N -> hexval (hexdigit d) = Some d.
Proof.
  intros H. unfold hexval, hexdigit.
  destruct (N.ltb_spec d 10).
  - assert ((48 <=? 48 + d) && (48 + d <=? 57) = true)%N as ->
      by (apply andb_true_iff; split; apply N.leb_le; lia).
    f_equal. lia.
  - assert ((48 <=? 87 + d) && (87 + d <=? 57) = false)%N as ->
      by (apply andb_false_iff; right; apply N.leb_gt; lia).
    assert ((97 <=? 87 + d) && (87 + d <=? 102) = true)%N as ->
      by (apply andb_true_iff; split; apply N.leb_le; lia).
    f_equal. lia.
Qed.

Lemma decode_u_escape n h3 h2 h1 h0 :
  (n < 65536)%N -> u_escape n = [92; 117; h3; h2; h1; h0]%N ->
  decode_hex4 h3 h2 h1 h0 = Some n.
Proof.
  intros H [= <- <- <- <-]. unfold decode_hex4.
  rewrite !hexval_hexdigit by (apply N.mod_lt; lia).
  f_equal. divlia.
Qed.

Lemma lor_high_low q r : (r < 1024)%N -> N.lor (q * 1024) r = (q * 1024 + r)%N.
Proof.
  intros H. rewrite N.add_nocarry_lxor, N.lxor_lor; try done;
    apply N.bits_inj; intros i; rewrite N.land_spec, N.bits_0;
    change 1024%N with (2 ^ 10)%N in *;
    (destruct (N.lt_ge_cases i 10);
     [ by rewrite N.mul_pow2_bits_low
     | rewrite <- (N.mod_small r (2 ^ 10)) by done;
       rewrite N.mod_pow2_bits_high by done; apply andb_false_r ]).
Qed.

Lemma high_surrogate n :
  (n < 1048576)%N ->
  N.lor 55296 (N.land (N.shiftr n 10) 1023) = (55296 + n / 1024)%N.
Proof.
  intros H. change 1023%N with (N.ones 10).
  rewrite N.land_ones, N.shiftr_div_pow2. change (2 ^ 10)%N with 1024%N.
  rewrite (N.mod_small (n / 1024) 1024) by divlia.
  change 55296%N with (54 * 1024)%N.
  apply lor_high_low. divlia.
Qed.

Lemma low_surrogate n :
  N.lor 56320 (N.land n 1023) = (56320 + n mod 1024)%N.
Proof.
  change 1023%N with (N.ones 10). rewrite N.land_ones.
  change (2 ^ 10)%N with 1024%N. change 56320%N with (55 * 1024)%N.
  apply lor_high_low. by apply N.mod_lt.
Qed.

Lemma surrogates_join n :
  (n < 1048576)%N ->
  (65536 + N.lor (N.shiftl (55296 + n / 1024 - 55296) 10)
                 (56320 + n mod 1024 - 56320) = 65536 + n)%N.
Proof.
  intros H. f_equal.
  replace (55296 + n / 1024 - 55296)%N with (n / 1024)%N by divlia.
  replace (56320 + n mod 1024 - 56320)%N with (n mod 1024)%N by divlia.
  rewrite N.shiftl_mul_pow2. change (2 ^ 10)%N with 1024%N.
  rewrite lor_high_low by (by apply N.mod_lt).
  divlia.
Qed.

Lemma scanstring_plain c s :
  (c =? 34)%N = false -> (c =? 92)%N = false -> (c <? 32)%N = false ->
  scanstring (c :: s) = push c (scanstring s).
Proof. intros H1 H2 H3. cbn [scanstring]. by rewrite H1, H2, H3. Qed.

Lemma scanstring_u h3 h2 h1 h0 uni s :
  decode_hex4 h3 h2 h1 h0 = Some uni ->
  ((55296 <=? uni) && (uni <=? 56319))%N = false ->
  scanstring ([92; 117; h3; h2; h1; h0]%N ++ s) = push uni (scanstring s).
Proof.
  intros H1 H2. cbn [scanstring app].
  change (92 =? 34)%N with false. change (92 =? 92)%N with true.
  change (117 =? 117)%N with true. cbv beta iota. rewrite H1.
  destruct s as [|b [|u [|g3 [|g2 [|g1 [|g0 s4]]]]]]; try reflexivity.
  by rewrite H2.
Qed.

Lemma scanstring_pair h3 h2 h1 h0 g3 g2 g1 g0 uni uni2 s :
  decode_hex4 h3 h2 h1 h0 = Some uni ->
  decode_hex4 g3 g2 g1 g0 = Some uni2 ->
  ((55296 <=? uni) && (uni <=? 56319))%N = true ->
  ((56320 <=? uni2) && (uni2 <=? 57343))%N = true ->
  scanstring ([92; 117; h3; h2; h1; h0]%N ++ [92; 117; g3; g2; g1; g0]%N ++ s)
  = push (65536 + N.lor (N.shiftl (uni - 55296) 10) (uni2 - 56320))%N
         (scanstring s).
Proof.
  intros H1 H2 H3 H4. cbn [scanstring app].
  change (92 =? 34)%N with false. change (92 =? 92)%N with true.
  change (117 =? 117)%N with true. cbv beta iota.
  by rewrite H1, H3, H2, H4.
Qed.

Lemma scanstring_u_escape_pair hi lo s :
  (hi < 65536)%N -> (lo < 65536)%N ->
  ((55296 <=? hi) && (hi <=? 56319))%N = true ->
  ((56320 <=? lo) && (lo <=? 57343))%N = true ->
  scanstring (u_escape hi ++ u_escape lo ++ s)
  = push (65536 + N.lor (N.shiftl (hi - 55296) 10) (lo - 56320))%N
         (scanstring s).
Proof.
  intros H1 H2 H3 H4. unfold u_escape.
  apply scanstring_pair; try done; by apply decode_u_escape.
Qed.

Lemma scanstring_u_high h3 h2 h1 h0 uni s :
  decode_hex4 h3 h2 h1 h0 = Some uni -> no_low_escape s ->
  scanstring ([92; 117; h3; h2; h1; h0]%N ++ s) = push uni (scanstring s).
Proof.
  intros H1 H2. cbn [scanstring app].
  change (92 =? 34)%N with false. change (92 =? 92)%N with true.
  change (117 =? 117)%N with true. cbv beta iota. rewrite H1.
  destruct s as [|b [|u [|g3 [|g2 [|g1 [|g0 s4]]]]]]; try reflexivity.
  destruct (N.eqb_spec b 92) as [->|]; [|by rewrite andb_false_r].
  destruct (N.eqb_spec u 117) as [->|]; [|by rewrite andb_false_r].
  destruct (H2 g3 g2 g1 g0 s4 eq_refl) as (uni2 & -> & Hlow).
  unfold is_low in Hlow. rewrite Hlow. by destruct (_ && _ && _ && _).
Qed.

Lemma no_low_escape_escape_char c tl :
  (c < 1114112)%N -> is_low c = false -> no_low_escape (escape_char c ++ tl).
Proof.
  intros Hmax Hlow. unfold escape_char, no_low_escape.
  destruct (N.eqb_spec c 34); [by intros ? ? ? ? ? [=]|].
  destruct (N.eqb_spec c 92) as [|H92]; [by intros ? ? ? ? ? [=]|].
  destruct (N.eqb_spec c 10); [by intros ? ? ? ? ? [=]|].
  destruct (N.eqb_spec c 13); [by intros ? ? ? ? ? [=]|].
  destruct (N.eqb_spec c 9); [by intros ? ? ? ? ? [=]|].
  destruct (N.eqb_spec c 8); [by intros ? ? ? ? ? [=]|].
  destruct (N.eqb_spec c 12); [by intros ? ? ? ? ? [=]|].
  destruct ((32 <=? c) && (c <=? 126))%N; [by intros ? ? ? ? ? [= ? _]|].
  destruct (N.ltb_spec c 65536) as [Hbmp|Hbmp].
  - intros g3 g2 g1 g0 s4 [= <- <- <- <- _]. exists c. split; [|done].
    by apply decode_u_escape.
  - cbv zeta. intros g3 g2 g1 g0 s4 [= <- <- <- <- _].
    assert (c - 65536 < 1048576)%N as Hn by lia.
    rewrite (high_surrogate _ Hn).
    exists (55296 + (c - 65536) / 1024)%N. split.
    + apply decode_u_escape; [divlia|done].
    + apply andb_false_iff. left. apply N.leb_gt. divlia.
Qed.

Lemma no_low_escape_escaped s rest :
  match s with
  | c :: _ => (c < 1114112)%N /\ is_low c = false
  | [] => True
  end ->
  no_low_escape (flat_map escape_char s ++ 34%N :: rest).
Proof.
  destruct s as [|c s]; [by intros _ ? ? ? ? ? [=]|].
  intros [Hmax Hlow]. cbn [flat_map]. rewrite <- app_assoc.
  by apply no_low_escape_escape_char.
Qed.

Lemma scanstring_escape_char c tl :
  (c < 1114112)%N -> (is_high c = true -> no_low_escape tl) ->
  scanstring (escape_char c ++ tl) = push c (scanstring tl).
Proof.
  intros Hmax Hhigh. unfold escape_char.
  destruct (N.eqb_spec c 34) as [->|H34]; [done|].
  destruct (N.eqb_spec c 92) as [->|H92]; [done|].
  destruct (N.eqb_spec c 10) as [->|H10]; [done|].
  destruct (N.eqb_spec c 13) as [->|H13]; [done|].
  destruct (N.eqb_spec c 9) as [->|H9]; [done|].
  destruct (N.eqb_spec c 8) as [->|H8]; [done|].
  destruct (N.eqb_spec c 12) as [->|H12]; [done|].
  destruct ((32 <=? c) && (c <=? 126))%N eqn:Hprint.
  - apply andb_true_iff in Hprint as [?%N.leb_le ?%N.leb_le].
    apply scanstring_plain.
    + by apply N.eqb_neq.
    + by apply N.eqb_neq.
    + apply N.ltb_ge. lia.
  - destruct (N.ltb_spec c 65536) as [Hbmp|Hbmp].
    + destruct (is_high c) eqn:Hc.
      * apply scanstring_u_high; [by apply decode_u_escape|by apply Hhigh].
      * apply scanstring_u; [by apply decode_u_escape|done].
    + cbv zeta.
      assert (c - 65536 < 1048576)%N as Hn by lia.
      rewrite (high_surrogate _ Hn), low_surrogate.
      rewrite <- app_assoc.
      rewrite scanstring_u_escape_pair.
      * rewrite (surrogates_join _ Hn). do 2 f_equal. lia.
      * divlia.
      * divlia.
      * apply andb_true_iff; split; apply N.leb_le; divlia.
      * apply andb_true_iff; split; apply N.leb_le; divlia.
Qed.

Lemma valid_text_head s :
  valid_text s ->
  forall c s', s = c :: s' ->
  (c < 1114112)%N
  /\ (is_high c = true ->
      match s' with
      | c' :: _ => (c' < 1114112)%N /\ is_low c' = false
      | [] => True
      end).
Proof.
  intros H c s' ->. destruct H as (Hmax & Hnext & Hs'). split; [done|].
  intros Hc. specialize (Hnext Hc).
  destruct s' as [|c' s'']; [done|]. by destruct Hs' as (? & _ & _).
Qed.

Lemma scanstring_escaped s rest :
  valid_text s ->
  scanstring (flat_map escape_char s ++ 34%N :: rest) = Some (s, rest).
Proof.
  induction s as [|c s IH]; [done|]. intros H.
  destruct (valid_text_head _ H c s eq_refl) as [Hmax Hnext].
  destruct H as (_ & _ & Hs).
  cbn [flat_map]. rewrite <- app_assoc, scanstring_escape_char.
  - by rewrite IH.
  - done.
  - intros Hc. by apply no_low_escape_escaped, Hnext.
Qed.

End JsonStrings.

(** ** Reading back what was saved *)

(** Decides the tests on characters that are known. *)
Ltac eval_tests :=
  repeat (match goal with
          | |- context [(?a =? ?b)%N] =>
              let v := eval vm_compute in (a =? b)%N in
              lazymatch v with true => idtac | false => idtac end;
              change (a =? b)%N with v
          | |- context [Json.is_ws ?a] =>
              let v := eval vm_compute in (Json.is_ws a) in
              lazymatch v with true => idtac | false => idtac end;
              change (Json.is_ws a) with v
          end; cbv iota).

Section RoundTrip.
Import Json.

Lemma skip_ws_spaces n c rest :
  is_ws c = false -> skip_ws (repeat 32%N n ++ c :: rest) = c :: rest.
Proof.
  intros H. induction n as [|n IH]; cbn [repeat app skip_ws].
  - by rewrite H.
  - change (is_ws 32) with true. by cbv iota.
Qed.

Lemma skip_ws_indent level c rest :
  is_ws c = false -> skip_ws (newline_indent level ++ c :: rest) = c :: rest.
Proof.
  intros H. unfold newline_indent. cbn [app skip_ws].
  change (is_ws 10) with true. cbv iota. by apply skip_ws_spaces.
Qed.

Lemma scan_once_string f s rest :
  valid_text s ->
  scan_once (S f) (34%N :: flat_map escape_char s ++ 34%N :: rest)
  = Parsed (Str s) rest.
Proof.
  intros H. cbn [scan_once]. change (34 =? 34)%N with true. cbv iota.
  by rewrite scanstring_escaped.
Qed.

(** One member whose value is a string, from just after the opening quote
    of its key: what [members] does after it depends on the text that
    follows the value. *)
Lemma members_string f k s tail pairs :
  valid_text k -> valid_text s ->
  members (S (S f))
    (flat_map escape_char k
     ++ 34%N :: 58%N :: 32%N :: 34%N :: flat_map escape_char s ++ 34%N :: tail)
    pairs
  = match skip_ws tail with
    | d :: r3 =>
        if (d =? 125)%N then Parsed (pairs ++ [(k, Str s)]) r3
        else if (d =? 44)%N then
          match skip_ws r3 with
          | q :: r4 =>
              if (q =? 34)%N then members (S f) r4 (pairs ++ [(k, Str s)])
              else DecodeError
          | [] => DecodeError
          end
        else DecodeError
    | [] => DecodeError
    end.
Proof.
  intros Hk Hs. remember (S f) as f1 eqn:Hf1.
  cbn [members]. rewrite scanstring_escaped by done.
  cbn [skip_ws]. change (is_ws 58) with false. cbv iota.
  change (58 =? 58)%N with true. cbv iota.
  cbn [skip_ws]. change (is_ws 32) with true. cbv iota.
  cbn [skip_ws]. change (is_ws 34) with false. cbv iota.
  subst f1. by rewrite scan_once_string.
Qed.

Lemma valid_text_ascii s :
  forallb (fun c => (c <? 128)%N) s = true -> valid_text s.
Proof.
  induction s as [|c s IH]; [done|]. cbn [forallb valid_text].
  intros [Hc Hs]%andb_true_iff. apply N.ltb_lt in Hc. split; [lia|].
  split; [|by apply IH].
  intros [Hhi _]%andb_true_iff. apply N.leb_le in Hhi. lia.
Qed.

Lemma valid_text_keys :
  valid_text (lit "name") /\ valid_text (lit "description")
  /\ valid_text (lit "url") /\ valid_text (lit "found_date").
Proof. repeat split; by apply valid_text_ascii. Qed.

Lemma record_text_layout r rest :
  record_text r ++ rest =
  123%N :: newline_indent 2
  ++ 34%N :: flat_map escape_char (lit "name")
  ++ 34%N :: 58%N :: 32%N :: 34%N :: flat_map escape_char (name r)
  ++ 34%N :: 44%N :: newline_indent 2
  ++ 34%N :: flat_map escape_char (lit "description")
  ++ 34%N :: 58%N :: 32%N :: 34%N :: flat_map escape_char (description r)
  ++ 34%N :: 44%N :: newline_indent 2
  ++ 34%N :: flat_map escape_char (lit "url")
  ++ 34%N :: 58%N :: 32%N :: 34%N :: flat_map escape_char (url r)
  ++ 34%N :: 44%N :: newline_indent 2
  ++ 34%N :: flat_map escape_char (lit "found_date")
  ++ 34%N :: 58%N :: 32%N :: 34%N :: flat_map escape_char (found_date r)
  ++ 34%N :: newline_indent 1 ++ 125%N :: rest.
Proof.
  unfold record_text, record_to_json. cbn [encode].
  unfold encode_basestring_ascii. by rewrite <- !app_assoc.
Qed.

Lemma dict_of_record_pairs a b c d :
  dict_of_pairs [ (lit "name", a); (lit "description", b);
                  (lit "url", c); (lit "found_date", d) ]
  = [ (lit "name", a); (lit "description", b);
      (lit "url", c); (lit "found_date", d) ].
Proof. vm_compute. reflexivity. Qed.

Lemma scan_once_record f r rest :
  valid_record r ->
  scan_once (S (S (S (S (S (S f)))))) (record_text r ++ rest)
  = Parsed (record_to_json r) rest.
Proof.
  intros (Hn & Hd & Hu & Hf).
  destruct valid_text_keys as (Kn & Kd & Ku & Kf).
  rewrite record_text_layout.
  remember (S (S (S (S (S f))))) as f5 eqn:Hf5.
  cbn [scan_once]. eval_tests.
  rewrite skip_ws_indent by done. eval_tests. subst f5.
  rewrite members_string by done. cbn [skip_ws]. eval_tests.
  rewrite skip_ws_indent by done. eval_tests.
  rewrite members_string by done. cbn [skip_ws]. eval_tests.
  rewrite skip_ws_indent by done. eval_tests.
  rewrite members_string by done. cbn [skip_ws]. eval_tests.
  rewrite skip_ws_indent by done. eval_tests.
  rewrite members_string by done.
  rewrite skip_ws_indent by done. eval_tests.
  cbn [app]. by rewrite dict_of_record_pairs.
Qed.

Lemma skip_ws_before_record level r rest :
  skip_ws (newline_indent level ++ record_text r ++ rest) = record_text r ++ rest.
Proof.
  rewrite record_text_layout. by rewrite skip_ws_indent.
Qed.

Lemma dumps_store_nil : dumps (store_to_json []) = lit "[]".
Proof. reflexivity. Qed.

Lemma dumps_store_cons r R :
  dumps (store_to_json (r :: R)) =
  91%N :: newline_indent 1 ++ record_text r ++ more_records R
  ++ newline_indent 0 ++ [93%N].
Proof.
  unfold dumps, store_to_json. cbn [map encode]. fold (record_text r).
  cbn [app]. do 3 f_equal. apply (f_equal (fun l => l ++ _)).
  induction R as [|r' R IH]; [done|].
  cbn [map more_records]. fold (record_text r'). by rewrite IH.
Qed.

Lemma elements_records R : forall r values rest f,
  valid_record r -> Forall valid_record R ->
  elements (S (S (S (S (S (S (S (length R + f))))))))
    (record_text r ++ more_records R ++ newline_indent 0 ++ 93%N :: rest)
    values
  = Parsed (values ++ map record_to_json (r :: R)) rest.
Proof.
  induction R as [|r' R IH]; intros r values rest f Hr HR.
  - remember (S (S (S (S (S (S (length [] + f))))))) as f6 eqn:Hf6.
    cbn [elements more_records app]. subst f6.
    rewrite scan_once_record by done.
    rewrite skip_ws_indent by done. by eval_tests.
  - apply Forall_cons in HR as [Hr' HR].
    remember (S (S (S (S (S (S (length (r' :: R) + f))))))) as f6 eqn:Hf6.
    cbn [elements]. subst f6.
    rewrite scan_once_record by done.
    cbn [more_records]. change (lit ",") with [44%N]. cbn [app skip_ws].
    eval_tests. rewrite <- !app_assoc, skip_ws_before_record.
    cbn [length]. rewrite Nat.add_succ_l.
    rewrite (IH r' (values ++ [record_to_json r]) rest f Hr' HR).
    cbn [map]. by rewrite <- app_assoc.
Qed.

Lemma length_more_records R : length R <= length (more_records R).
Proof.
  induction R as [|r R IH]; [done|].
  cbn [more_records]. change (lit ",") with [44%N].
  rewrite !length_app. cbn [length]. lia.
Qed.

Lemma scan_once_store R f rest :
  Forall valid_record R ->
  scan_once (S (S (S (S (S (S (S (length R + f))))))))
    (dumps (store_to_json R) ++ rest)
  = Parsed (store_to_json R) rest.
Proof.
  intros HR. destruct R as [|r R]; [done|].
  apply Forall_cons in HR as [Hr HR].
  rewrite dumps_store_cons.
  remember (S (S (S (S (S (S (length (r :: R) + f))))))) as f6 eqn:Hf6.
  cbn [scan_once app]. eval_tests.
  rewrite <- !app_assoc, skip_ws_before_record.
  rewrite (record_text_layout r). eval_tests. rewrite <- (record_text_layout r).
  subst f6. cbn [length]. rewrite Nat.add_succ_l.
  cbn [app].
  by rewrite (elements_records R r [] rest f Hr HR).
Qed.

Lemma record_of_to_json r : record_of_json (record_to_json r) = Some r.
Proof.
  unfold record_of_json, record_to_json.
  rewrite decide_True by done. by destruct r.
Qed.

Lemma store_of_to_json R : store_of_json (store_to_json R) = Some R.
Proof.
  unfold store_of_json, store_to_json.
  induction R as [|r R IH]; [done|].
  cbn [map mapM]. rewrite record_of_to_json. cbn [mbind option_bind].
  rewrite IH. done.
Qed.

Lemma loads_dumps_store R :
  Forall valid_record R ->
  loads (dumps (store_to_json R)) = Parsed (store_to_json R) [].
Proof.
  intros HR. unfold loads.
  destruct R as [|r R]; [done|].
  set (text := dumps (store_to_json (r :: R))).
  assert (length R + 8 <= 2 * length text + 1) as Hfuel.
  { subst text. rewrite dumps_store_cons.
    change (newline_indent 1) with [10; 32; 32]%N.
    change (newline_indent 0) with [10%N].
    cbn [length app]. rewrite !length_app. cbn [length].
    pose proof (length_more_records R). lia. }
  assert (exists tl, text = 91%N :: tl) as [tl Htl]
    by (subst text; rewrite dumps_store_cons; eauto).
  rewrite Htl at 1. cbn [startswith]. eval_tests. cbn [andb].
  rewrite Htl at 2. cbn [skip_ws]. eval_tests. rewrite <- Htl.
  replace (2 * length text + 1)
    with (S (S (S (S (S (S (S (length (r :: R)
                               + (2 * length text + 1 - 8 - length R)))))))))
    by (cbn [length]; lia).
  rewrite <- (app_nil_r text). subst text.
  by rewrite scan_once_store.
Qed.

End RoundTrip.

(** C8. Saving a collection of valid records and loading the file again
    gives the collection back, record for record and field for field:
    the text [json.dump] writes decodes to the value encoded, the value is
    the list of the records, and a store file holding that text loads as
    the collection. *)
Theorem store_round_trip R :
  Forall valid_record R ->
  Json.loads (Json.dumps (store_to_json R)) = Json.Parsed (store_to_json R) []
  /\ store_of_json (store_to_json R) = Some R
  /\ (forall w,
        data_file w = Some (Json.dumps (store_to_json R)) ->
        load_store w = (Return R, w))
  /\ (forall w existing batch,
        load_store w = (Return existing, w) ->
        merge existing batch = R ->
        load_store (save_startups_data batch w).2
        = (Return R, (save_startups_data batch w).2)).
Proof.
  intros HR. pose proof (loads_dumps_store R HR) as Hloads.
  pose proof (store_of_to_json R) as Hstore.
  assert (forall w, data_file w = Some (Json.dumps (store_to_json R)) ->
                    load_store w = (Return R, w)) as Hload.
  { intros w Hw. unfold load_store, mbind, M_bind, get_world.
    by rewrite Hw, Hloads, Hstore. }
  do 3 (split; [done|]).
  intros w existing batch Hw Hm. apply Hload.
  by rewrite (save_startups_data_runs _ _ _ Hw), Hm.
Qed.

Lemma store_round_trip_witness :
  let R := [older_record; newer_record] in
  Forall valid_record R
  /\ (Json.loads (Json.dumps (store_to_json R)) = Json.Parsed (store_to_json R) []
      /\ store_of_json (store_to_json R) = Some R
      /\ (forall w,
            data_file w = Some (Json.dumps (store_to_json R)) ->
            load_store w = (Return R, w))
      /\ (forall w existing batch,
            load_store w = (Return existing, w) ->
            merge existing batch = R ->
            load_store (save_startups_data batch w).2
            = (Return R, (save_startups_data batch w).2))).
Proof.
  intros R.
  assert (Forall valid_record R) as HR
    by (repeat constructor; apply valid_text_ascii; reflexivity).
  split; [exact HR|]. exact (store_round_trip R HR).
Defined.

(** Where the round trip stops: a name that holds a high surrogate with a
    low surrogate right after it is written as the escape of the one
    character the two encode, and read back as that character. *)
Remark surrogate_pair_read_as_one :
  let r := {| name := [55357; 56832]%N; description := []; url := [];
              found_date := [] |} in
  let r' := {| name := [128512%N]; description := []; url := [];
               found_date := [] |} in
  Json.loads (Json.dumps (store_to_json [r])) = Json.Parsed (store_to_json [r']) [].
Proof. vm_compute. reflexivity. Qed.

(** Text made of characters, with no surrogate in it, is valid, whatever
    the characters. *)
Lemma scalars_valid_text s : Forall scalar s -> valid_text s.
Proof.
  induction 1 as [|c s [Hmax Hsur] _ IH]; [done|].
  cbn [valid_text]. split; [done|]. split; [|done].
  intros [Hlo Hhi]%andb_true_iff.
  apply N.leb_le in Hlo, Hhi. lia.
Qed.

(** C7. The claim fails on the code for a store file whose text is
    [[NaN]]. That text is not JSON, yet [json.load] does not raise
    [JSONDecodeError] on it: Python's decoder reads the constants [NaN],
    [Infinity] and [-Infinity] where a value may stand, and returns a
    list holding one number. So line 150 is not reached, the store does
    not load as the empty collection, and the run, here one without
    credentials, ends in an exception with nothing saved and nothing
    rendered: the [try] of lines 146-150 was written to take a corrupt
    file for an empty store and misses this case. *)
Theorem nan_store_is_not_taken_for_empty :
  let text := lit "[NaN]" in
  let w := sample_world (Some text) [] in
  let env := sample_env true true in
  Json.loads text = Json.Parsed (Json.Array [Json.Number (lit "NaN")]) []
  /\ Json.loads text <> Json.DecodeError
  /\ load_store w <> (Return [], w)
  /\ (run env None None w).1 <> Return tt
  /\ (run env None None w).2 = w.
Proof.
  intros text w env.
  assert (Json.loads text
          = Json.Parsed (Json.Array [Json.Number (lit "NaN")]) []) as Hloads
    by (vm_compute; reflexivity).
  split; [exact Hloads|]. split; [by rewrite Hloads|].
  assert (load_store w = (Raise Unmodelled, w)) as Hload
    by (vm_compute; reflexivity).
  split; [by rewrite Hload|].
  assert (run env None None w = (Raise Unmodelled, w)) as Hrun
    by (vm_compute; reflexivity).
  rewrite Hrun. by split.
Qed.

(** * Further properties of the code *)

(** ** What the search collects *)

Section Collected.

Lemma lstrip_head s c t : lstrip s = c :: t -> is_whitespace c = false.
Proof.
  induction s as [|x s IH]; cbn [lstrip]; [done|].
  destruct (is_whitespace x) eqn:Hx; [done|]. by intros [= -> _].
Qed.

Lemma lstrip_snoc a c :
  is_whitespace c = false -> lstrip (a ++ [c]) = lstrip a ++ [c].
Proof.
  intros Hc. induction a as [|x a IH]; cbn [lstrip app]; [by rewrite Hc|].
  by destruct (is_whitespace x).
Qed.

Lemma rstrip_last s t c : rstrip s = t ++ [c] -> is_whitespace c = false.
Proof.
  unfold rstrip. intros H. apply (f_equal (@rev N)) in H.
  rewrite rev_involutive, rev_app_distr in H. by apply lstrip_head in H.
Qed.

Lemma rstrip_head s :
  (forall c t, s = c :: t -> is_whitespace c = false) ->
  forall c t, rstrip s = c :: t -> is_whitespace c = false.
Proof.
  intros Hs. destruct s as [|x s]; [done|].
  pose proof (Hs x s eq_refl) as Hx. unfold rstrip. cbn [rev].
  rewrite lstrip_snoc, rev_app_distr by done. by intros c t [= <- _].
Qed.

Lemma strip_no_outer_space s : no_outer_space (strip s).
Proof.
  unfold strip. split.
  - apply rstrip_head. intros c t. apply lstrip_head.
  - intros t c. apply rstrip_last.
Qed.

Lemma lstrip_fixed s :
  (forall c t, s = c :: t -> is_whitespace c = false) -> lstrip s = s.
Proof.
  destruct s as [|c s]; [done|]. intros H. cbn [lstrip].
  by rewrite (H c s eq_refl).
Qed.

Lemma strip_fixed s : no_outer_space s -> strip s = s.
Proof.
  intros [Hhead Hlast]. unfold strip, rstrip.
  rewrite (lstrip_fixed s Hhead), lstrip_fixed; [apply rev_involutive|].
  intros c t Hrev. apply (Hlast (rev t)).
  by rewrite <- (rev_involutive s), Hrev.
Qed.

Lemma card_record_fields card r :
  card_record card = Some r ->
  no_outer_space (name r) /\ no_outer_space (description r)
  /\ (link_href card = None -> url r = [])
  /\ found_date r = seen_on card.
Proof.
  unfold card_record.
  destruct (span_text card), (summary_text card); try done.
  intros [= <-]. cbn [name description url found_date].
  repeat split; try apply strip_no_outer_space. by intros ->.
Qed.

Lemma search_app cards1 cards2 :
  search_yc_ai_startups (Some (cards1 ++ cards2)) =
  search_yc_ai_startups (Some cards1) ++ search_yc_ai_startups (Some cards2).
Proof.
  unfold search_yc_ai_startups. rewrite !search_loop_filter. cbn [app].
  by rewrite omap_app, List.filter_app.
Qed.

Lemma search_length cards :
  length (search_yc_ai_startups (Some cards)) <= length cards.
Proof.
  unfold search_yc_ai_startups. rewrite search_loop_filter. cbn [app].
  etrans; [apply List.filter_length_le|].
  induction cards as [|card cards IH]; cbn [omap list_omap length]; [done|].
  destruct (card_record card); cbn [length]; lia.
Qed.

End Collected.

(** X1. The search handles the cards one by one and in order: the batch
    for two runs of cards, one after the other, is the batch of the first
    followed by that of the second. A card whose name or summary cannot
    be read, or whose summary does not qualify, adds nothing; no card
    adds more than one record; a page that cannot be loaded gives the
    empty batch. *)
Theorem search_card_by_card :
  (forall cards1 cards2,
     search_yc_ai_startups (Some (cards1 ++ cards2)) =
     search_yc_ai_startups (Some cards1) ++ search_yc_ai_startups (Some cards2))
  /\ (forall card,
        span_text card = None \/ summary_text card = None ->
        search_yc_ai_startups (Some [card]) = [])
  /\ (forall card summary,
        summary_text card = Some summary -> qualifies (strip summary) = false ->
        search_yc_ai_startups (Some [card]) = [])
  /\ (forall cards, length (search_yc_ai_startups (Some cards)) <= length cards)
  /\ search_yc_ai_startups None = [].
Proof.
  split; [exact search_app|]. split; [|split; [|split; [exact search_length|done]]].
  - intros card H. cbn [search_yc_ai_startups fold_left]. unfold scan_card.
    destruct H as [-> | H]; [done|]. rewrite H. by destruct (span_text card).
  - intros card summary H Hq. cbn [search_yc_ai_startups fold_left].
    unfold scan_card. rewrite H. destruct (span_text card); [|done].
    by rewrite Hq.
Qed.

(** X2. Every record the search collects has a name and a description
    with no white space at either end (stripping them again changes
    nothing), qualifies, and is the record of a card of the page: its
    name and description are the card's texts stripped, its date is the
    date read for that card, and its url is the address of that card's
    link, or empty when the link was not found. *)
Theorem collected_records_are_stripped page r :
  In r (search_yc_ai_startups page) ->
  no_outer_space (name r) /\ no_outer_space (description r)
  /\ strip (name r) = name r /\ strip (description r) = description r
  /\ qualifies (description r) = true
  /\ exists cards card span summary,
       page = Some cards /\ In card cards
       /\ card_record card = Some r
       /\ span_text card = Some span /\ name r = strip span
       /\ summary_text card = Some summary /\ description r = strip summary
       /\ found_date r = seen_on card
       /\ (link_href card = None -> url r = [])
       /\ (forall href, link_href card = Some href -> url r = href).
Proof.
  intros Hr. pose proof (search_qualified page r Hr) as Hq.
  destruct page as [cards|]; [|done].
  unfold search_yc_ai_startups in Hr. rewrite search_loop_filter in Hr.
  cbn [app] in Hr. apply filter_In in Hr as [Hr _].
  apply list_elem_of_In, list_elem_of_omap in Hr as (card & Hcard & Hrec).
  destruct (card_record_fields card r Hrec) as (Hn & Hd & Hu & Hf).
  do 2 (split; [done|]). do 2 (split; [by apply strip_fixed|]).
  split; [done|].
  assert (exists span summary,
            span_text card = Some span /\ name r = strip span
            /\ summary_text card = Some summary /\ description r = strip summary
            /\ (forall href, link_href card = Some href -> url r = href))
    as (span & summary & Hs1 & Hs2 & Hs3 & Hs4 & Hs5).
  { unfold card_record in Hrec.
    destruct (span_text card) as [span|], (summary_text card) as [summary|];
      try done.
    injection Hrec as <-. exists span, summary.
    cbn [name description url]. repeat split. by intros href ->. }
  exists cards, card, span, summary. by rewrite <- list_elem_of_In.
Qed.

Lemma collected_records_are_stripped_witness :
  let page := search_page (sample_env true true) in
  let r := {| name := lit "Acme"; description := lit "YC W21. AI for tax.";
              url := []; found_date := lit "2024-05-01" |} in
  In r (search_yc_ai_startups page)
  /\ (no_outer_space (name r) /\ no_outer_space (description r)
      /\ strip (name r) = name r /\ strip (description r) = description r
      /\ qualifies (description r) = true
      /\ exists cards card span summary,
           page = Some cards /\ In card cards
           /\ card_record card = Some r
           /\ span_text card = Some span /\ name r = strip span
           /\ summary_text card = Some summary
           /\ description r = strip summary
           /\ found_date r = seen_on card
           /\ (link_href card = None -> url r = [])
           /\ (forall href, link_href card = Some href -> url r = href)).
Proof.
  intros page r.
  assert (In r (search_yc_ai_startups page)) as Hr by (left; reflexivity).
  split; [exact Hr|]. exact (collected_records_are_stripped page r Hr).
Defined.

(** ** The merge, further *)

Section MergeFurther.
Implicit Types E I : list StartupRecord.

Lemma merge_app E I1 I2 : merge E (I1 ++ I2) = merge (merge E I1) I2.
Proof.
  unfold merge at 1. rewrite fold_left_app. fold (names E).
  rewrite merge_loop_new_records, <- merge_new_records. done.
Qed.

Lemma new_records_length E I : length (new_records E I) <= length I.
Proof.
  induction I as [|r I IH] using rev_ind; [done|].
  rewrite new_records_snoc, !length_app.
  destruct (decide _); cbn [length]; lia.
Qed.

Lemma new_records_subset E I r : r ∈ new_records E I -> r ∈ I.
Proof.
  unfold new_records. intros ([i x] & Hix & Hr)%list_elem_of_omap.
  apply list_elem_of_lookup in Hix as [j Hj].
  apply list_lookup_imap_Some in Hj as (y & Hy & [= -> ->]).
  cbn in Hr. destruct (decide _); [|done]. injection Hr as <-.
  by eapply list_elem_of_lookup_2.
Qed.

Lemma merge_names_NoDup E I : NoDup (names E) -> NoDup (names (merge E I)).
Proof.
  intros HE. rewrite merge_new_records.
  induction I as [|r I IH] using rev_ind.
  - unfold new_records. cbn. by rewrite app_nil_r.
  - rewrite new_records_snoc, app_assoc. unfold names. rewrite fmap_app.
    destruct (decide _) as [H|H]; cbn [fmap list_fmap].
    + by rewrite app_nil_r.
    + apply NoDup_app. split; [done|]. split; [|apply NoDup_singleton].
      intros n Hn ->%list_elem_of_singleton.
      by apply names_new_records in Hn.
Qed.

Lemma stored_unique (l : list StartupRecord) r :
  NoDup (names l) -> r ∈ l -> stored (name r) l = Some r.
Proof.
  unfold stored, names. induction l as [|x l IH]; [by intros _ ?%elem_of_nil|].
  cbn [fmap list_fmap List.find]. intros [Hx Hl]%NoDup_cons [-> |Hr]%elem_of_cons.
  - by rewrite bool_decide_eq_true_2.
  - rewrite bool_decide_eq_false_2; [by apply IH|].
    intros Heq. apply Hx. rewrite Heq. by apply list_elem_of_fmap_2.
Qed.

End MergeFurther.

(** X3. The merge keeps names unique: when no two records of the existing
    collection share a name, no two records of the merged collection do,
    whatever the batch holds, and looking a record of the result up by
    its name finds that record. *)
Theorem merge_keeps_names_unique E I :
  NoDup (names E) ->
  NoDup (names (merge E I))
  /\ (forall r, r ∈ merge E I -> stored (name r) (merge E I) = Some r).
Proof.
  intros HE. pose proof (merge_names_NoDup E I HE) as H.
  split; [done|]. intros r Hr. by apply stored_unique.
Qed.

Lemma merge_keeps_names_unique_witness :
  let E := [older_record] in
  let I := [newer_record; older_record; newer_record] in
  NoDup (names E)
  /\ (NoDup (names (merge E I))
      /\ (forall r, r ∈ merge E I -> stored (name r) (merge E I) = Some r)).
Proof.
  intros E I.
  assert (NoDup (names E)) as H by (apply NoDup_singleton).
  split; [exact H|]. exact (merge_keeps_names_unique E I H).
Defined.

(** X4. No name is lost and none is made up: a name is in the merged
    collection exactly when it is in the existing collection or in the
    batch. Every record of the result is a record of one of the two, and
    the result is no shorter than the existing collection and no longer
    than the two together. *)
Theorem merge_names_are_the_union E I :
  (forall n, n ∈ names (merge E I) <-> (n ∈ names E) \/ (n ∈ names I))
  /\ (forall r, r ∈ merge E I -> (r ∈ E) \/ (r ∈ I))
  /\ length E <= length (merge E I) <= length E + length I.
Proof.
  rewrite merge_new_records. split; [apply names_new_records|]. split.
  - intros r [?|?%new_records_subset]%elem_of_app; auto.
  - rewrite length_app. pose proof (new_records_length E I). lia.
Qed.

(** X5. Merging batch after batch is merging the batches joined: the
    merge of a batch made of two parts is the merge of the second part
    into the merge of the first. The empty batch changes nothing, and a
    merge into the empty collection keeps the first record of each
    name. *)
Theorem merge_batches_compose E I1 I2 :
  merge E (I1 ++ I2) = merge (merge E I1) I2
  /\ merge E [] = E
  /\ merge [] I1 = new_records [] I1
  /\ NoDup (names (merge [] I1)).
Proof.
  split; [apply merge_app|]. split; [done|]. split.
  - by rewrite merge_new_records.
  - apply merge_names_NoDup. constructor.
Qed.

(** ** The report, further *)

Section ReportFurther.

Lemma sort_asc_of_sorted {A} (key : A -> pystr) l :
  StronglySorted (key_asc key) l -> sort_asc key l = l.
Proof.
  induction 1 as [|x l Hl IH Hx]; [done|].
  cbn [sort_asc]. rewrite IH. destruct l as [|y l]; [done|].
  cbn [insert_sorted]. apply Forall_cons in Hx as [Hy _].
  unfold key_asc in Hy. by rewrite Hy.
Qed.

Lemma sort_reverse_idem {A} (key : A -> pystr) l :
  sort_reverse key (sort_reverse key l) = sort_reverse key l.
Proof.
  unfold sort_reverse. rewrite rev_involutive.
  by rewrite (sort_asc_of_sorted key _ (sort_asc_sorted key (rev l))).
Qed.

Lemma short_desc_length d : length (short_desc d) <= 103.
Proof.
  destruct (Nat.le_gt_cases (length d) 100) as [H|H].
  - rewrite short_desc_short by done. lia.
  - rewrite short_desc_long by done.
    rewrite length_app, length_take. change (length (lit "...")) with 3. lia.
Qed.

Lemma short_desc_prefix d : take 100 (short_desc d) = take 100 d.
Proof.
  destruct (Nat.le_gt_cases (length d) 100) as [H|H].
  - by rewrite short_desc_short.
  - rewrite short_desc_long by done.
    rewrite take_app_le by (rewrite length_take; lia).
    apply take_take.
Qed.

End ReportFurther.

(** X6. Rendering is repeatable: a second call of the renderer on the same
    list, with the same date, leaves the list as the first call left it
    and writes the same report again; the sort of a sorted list changes
    nothing. *)
Theorem rendering_twice_changes_nothing today startups w l :
  heap w !! startups = Some l ->
  let w1 := (update_readme today startups w).2 in
  let w2 := (update_readme today startups w1).2 in
  heap w2 = heap w1
  /\ results_file w2 = results_file w1
  /\ data_file w2 = data_file w
  /\ written w2 = ResultsFile :: ResultsFile :: written w.
Proof.
  intros H w1 w2. subst w2 w1. rewrite (update_readme_runs _ _ _ _ H).
  cbn [snd].
  erewrite update_readme_runs; cbn [heap];
    [|apply list_lookup_insert_eq; by eapply lookup_lt_Some].
  cbn [snd heap results_file data_file written].
  rewrite sort_reverse_idem. split; [|done].
  apply list_insert_id. apply list_lookup_insert_eq. by eapply lookup_lt_Some.
Qed.

Lemma rendering_twice_changes_nothing_witness :
  let l := [older_record; newer_record] in
  let w := sample_world None [l] in
  heap w !! 0 = Some l
  /\ (let w1 := (update_readme (lit "2024-01-03") 0 w).2 in
      let w2 := (update_readme (lit "2024-01-03") 0 w1).2 in
      heap w2 = heap w1
      /\ results_file w2 = results_file w1
      /\ data_file w2 = data_file w
      /\ written w2 = ResultsFile :: ResultsFile :: written w).
Proof.
  intros l w. split; [reflexivity|].
  apply (rendering_twice_changes_nothing (lit "2024-01-03") 0 w l).
  reflexivity.
Defined.

(** X7. The description a row shows never has more than 103 characters,
    and its first 100 characters are those of the description: the cut
    keeps a prefix and adds the three dots, nothing else. A description
    longer than 100 characters is shown as exactly 103 characters, the
    last three being the dots, however long it is. *)
Theorem shown_description_is_bounded_prefix d :
  length (short_desc d) <= 103
  /\ take 100 (short_desc d) = take 100 d
  /\ (100 < length d ->
      length (short_desc d) = 103 /\ drop 100 (short_desc d) = lit "...").
Proof.
  split; [apply short_desc_length|]. split; [apply short_desc_prefix|].
  intros H. rewrite short_desc_long by done. split.
  - rewrite length_app, length_take. change (length (lit "...")) with 3. lia.
  - rewrite drop_app_length'; [done|]. rewrite length_take. lia.
Qed.

(** ** Saving and running, further *)

Section RunFurther.

Lemma load_store_cases w :
  (exists existing, load_store w = (Return existing, w))
  \/ (exists e, load_store w = (Raise e, w)).
Proof.
  unfold load_store, mbind, M_bind, get_world, mret, M_ret, raise.
  destruct (data_file w) as [text|]; [|by left; exists []].
  destruct (Json.loads text) as [v r| |]; [|by left; exists []|by right; eexists].
  destruct (store_of_json v) as [l|]; [by left; exists l|by right; eexists].
Qed.

Lemma save_startups_data_raises startups w e :
  load_store w = (Raise e, w) -> save_startups_data startups w = (Raise e, w).
Proof.
  intros H. unfold save_startups_data, mbind at 1, M_bind at 1. by rewrite H.
Qed.

Lemma save_then_render_raises startups today w e :
  load_store w = (Raise e, w) ->
  (all_startups ← save_startups_data startups;
   update_readme today all_startups) w = (Raise e, w).
Proof.
  intros H. unfold mbind at 1, M_bind at 1.
  by rewrite (save_startups_data_raises _ _ _ H).
Qed.

Lemma load_saved_text w R :
  data_file w = Some (Json.dumps (store_to_json R)) ->
  Forall valid_record R ->
  load_store w = (Return R, w).
Proof.
  intros Hw Hvalid. unfold load_store, mbind, M_bind, get_world.
  by rewrite Hw, (loads_dumps_store _ Hvalid), store_of_to_json.
Qed.

Lemma load_after_save startups w existing :
  load_store w = (Return existing, w) ->
  Forall valid_record (merge existing startups) ->
  load_store (save_startups_data startups w).2
  = (Return (merge existing startups), (save_startups_data startups w).2).
Proof.
  intros Hload Hvalid. rewrite (save_startups_data_runs _ _ _ Hload).
  by apply load_saved_text.
Qed.

Lemma load_after_run env username password w existing batch :
  batch_merged env username password = Some batch ->
  load_store w = (Return existing, w) ->
  Forall valid_record (merge existing batch) ->
  load_store (run env username password w).2
  = (Return (merge existing batch), (run env username password w).2).
Proof.
  intros Hb Hload Hvalid. rewrite (run_reaches_merge _ _ _ _ _ _ Hb Hload).
  by apply load_saved_text.
Qed.

Lemma merge_known_names existing batch :
  Forall (fun r => name r ∈ names existing) batch ->
  merge existing batch = existing.
Proof.
  intros H. unfold merge. fold (names existing).
  by rewrite merge_loop_known.
Qed.

End RunFurther.

(** X8. Saving returns what it stored: when the store loads, the call
    writes the store file and nothing else, the text written is the JSON
    of the merged collection, and the list returned is a new list object
    holding that same collection; the list objects there before are as
    they were and the report is not touched. *)
Theorem save_returns_what_it_stored startups w existing :
  load_store w = (Return existing, w) ->
  let res := save_startups_data startups w in
  res.1 = Return (length (heap w))
  /\ heap res.2 !! length (heap w) = Some (merge existing startups)
  /\ data_file res.2 = Some (Json.dumps (store_to_json (merge existing startups)))
  /\ (forall r l, heap w !! r = Some l -> heap res.2 !! r = Some l)
  /\ results_file res.2 = results_file w
  /\ written res.2 = DataFile :: written w.
Proof.
  intros H res. subst res. rewrite (save_startups_data_runs _ _ _ H).
  cbn [fst snd heap data_file results_file written].
  split; [done|]. split; [apply heap_lookup_new|]. split; [done|].
  split; [|done]. intros r l Hr. by apply lookup_app_l_Some.
Qed.

Lemma save_returns_what_it_stored_witness :
  let w := sample_world None [[older_record]] in
  let startups := [newer_record] in
  load_store w = (Return [], w)
  /\ (let res := save_startups_data startups w in
      res.1 = Return (length (heap w))
      /\ heap res.2 !! length (heap w) = Some (merge [] startups)
      /\ data_file res.2 = Some (Json.dumps (store_to_json (merge [] startups)))
      /\ (forall r l, heap w !! r = Some l -> heap res.2 !! r = Some l)
      /\ results_file res.2 = results_file w
      /\ written res.2 = DataFile :: written w).
Proof.
  intros w startups. split; [reflexivity|].
  apply (save_returns_what_it_stored startups w []). reflexivity.
Defined.

(** X9. What one run stores, the next run finds: after a run that merged
    the batch [batch1] into a store that loaded as [existing], the store
    loads as the merged collection, and a second run with the batch
    [batch2] leaves in the store file the merge of the two batches, one
    after the other, into [existing]. The records must be such as the
    store file can hold. *)
Theorem runs_accumulate env1 env2 user1 pass1 user2 pass2 w existing batch1 batch2 :
  batch_merged env1 user1 pass1 = Some batch1 ->
  batch_merged env2 user2 pass2 = Some batch2 ->
  load_store w = (Return existing, w) ->
  Forall valid_record (merge existing batch1) ->
  let w1 := (run env1 user1 pass1 w).2 in
  let w2 := (run env2 user2 pass2 w1).2 in
  load_store w1 = (Return (merge existing batch1), w1)
  /\ data_file w2
     = Some (Json.dumps (store_to_json (merge existing (batch1 ++ batch2))))
  /\ (forall i r, merge existing batch1 !! i = Some r ->
                  merge existing (batch1 ++ batch2) !! i = Some r).
Proof.
  intros Hb1 Hb2 Hload Hvalid w1 w2.
  pose proof (load_after_run _ _ _ _ _ _ Hb1 Hload Hvalid) as Hload1.
  fold w1 in Hload1. split; [done|]. split.
  - subst w2. rewrite (run_reaches_merge _ _ _ _ _ _ Hb2 Hload1).
    cbn [snd data_file]. by rewrite merge_app.
  - intros i r Hr. rewrite merge_app, merge_new_records.
    rewrite lookup_app_l; [done|]. by eapply lookup_lt_Some.
Qed.

Lemma runs_accumulate_witness :
  let env := sample_env true true in
  let w := sample_world None [] in
  let batch1 := mock_startups env in
  let batch2 := search_yc_ai_startups (search_page env) in
  let user := Some (lit "user") in
  let pass := Some (lit "secret") in
  batch_merged env None None = Some batch1
  /\ batch_merged env user pass = Some batch2
  /\ load_store w = (Return [], w)
  /\ Forall valid_record (merge [] batch1)
  /\ (let w1 := (run env None None w).2 in
      let w2 := (run env user pass w1).2 in
      load_store w1 = (Return (merge [] batch1), w1)
      /\ data_file w2
         = Some (Json.dumps (store_to_json (merge [] (batch1 ++ batch2))))
      /\ (forall i r, merge [] batch1 !! i = Some r ->
                      merge [] (batch1 ++ batch2) !! i = Some r)).
Proof.
  intros env w batch1 batch2 user pass.
  assert (batch_merged env None None = Some batch1) as H1 by reflexivity.
  assert (batch_merged env user pass = Some batch2) as H2 by reflexivity.
  assert (load_store w = (Return [], w)) as H3 by reflexivity.
  assert (Forall valid_record (merge [] batch1)) as H4
    by (repeat constructor; apply valid_text_ascii; reflexivity).
  do 4 (split; [assumption|]).
  exact (runs_accumulate env env None None user pass w [] batch1 batch2
           H1 H2 H3 H4).
Defined.

(** X10. A run that finds nothing new leaves the store file as it is:
    when the store file holds the text saved for a collection and every
    name of the batch is already in that collection, the run writes the
    same text again. So a second run without credentials, on whatever
    day, does not change the store the first one made. *)
Theorem run_without_news_keeps_store env username password w existing batch :
  batch_merged env username password = Some batch ->
  data_file w = Some (Json.dumps (store_to_json existing)) ->
  Forall valid_record existing ->
  Forall (fun r => name r ∈ names existing) batch ->
  data_file (run env username password w).2 = data_file w
  /\ (forall env0 env1 w0,
        store_missing_or_corrupt w0 ->
        valid_text (mock_date1 env0) -> valid_text (mock_date2 env0) ->
        data_file (run env1 None None (run env0 None None w0).2).2
        = data_file (run env0 None None w0).2).
Proof.
  intros Hb Hw Hvalid Hknown. split.
  - rewrite (run_reaches_merge _ _ _ _ _ _ Hb (load_saved_text _ _ Hw Hvalid)).
    cbn [snd data_file]. by rewrite merge_known_names, Hw.
  - intros env0 env1 w0 Hw0 Hd1 Hd2.
    pose proof (load_store_missing_or_corrupt w0 Hw0) as Hload0.
    assert (merge [] (mock_startups env0) = mock_startups env0) as Hm
      by reflexivity.
    assert (Forall valid_record (mock_startups env0)) as Hv0.
    { repeat constructor; cbn; try done; by apply valid_text_ascii. }
    rewrite (run_reaches_merge env0 None None w0 [] _ eq_refl Hload0).
    cbn [snd]. rewrite Hm.
    erewrite (run_reaches_merge env1 None None _ (mock_startups env0) _ eq_refl).
    + cbn [snd data_file]. rewrite merge_known_names; [done|].
      repeat constructor.
    + by apply load_saved_text.
Qed.

Lemma run_without_news_keeps_store_witness :
  let env := sample_env true true in
  let existing := mock_startups env in
  let w := sample_world (Some (Json.dumps (store_to_json existing))) [] in
  batch_merged env None None = Some existing
  /\ data_file w = Some (Json.dumps (store_to_json existing))
  /\ Forall valid_record existing
  /\ Forall (fun r => name r ∈ names existing) existing
  /\ (data_file (run env None None w).2 = data_file w
      /\ (forall env0 env1 w0,
            store_missing_or_corrupt w0 ->
            valid_text (mock_date1 env0) -> valid_text (mock_date2 env0) ->
            data_file (run env1 None None (run env0 None None w0).2).2
            = data_file (run env0 None None w0).2)).
Proof.
  intros env existing w.
  assert (batch_merged env None None = Some existing) as H1 by reflexivity.
  assert (data_file w = Some (Json.dumps (store_to_json existing))) as H2
    by reflexivity.
  assert (Forall valid_record existing) as H3
    by (repeat constructor; apply valid_text_ascii; reflexivity).
  assert (Forall (fun r => name r ∈ names existing) existing) as H4
    by (repeat constructor).
  do 4 (split; [assumption|]).
  exact (run_without_news_keeps_store env None None w existing existing
           H1 H2 H3 H4).
Defined.

(** ** How a run ends *)

(** X11. When [driver.quit()] raises, a run with credentials whose
    browser did start ends by raising, with nothing written: if the login
    failed, the first call raises into the handler, whose own call raises
    out of [run]; if the search was done, its batch is lost the same
    way. *)
Theorem quit_failure_loses_the_batch env username password w :
  provided username = true -> provided password = true ->
  chrome_starts env = true -> quit_ok env = false ->
  run env username password w = (Raise WebDriverException, w).
Proof.
  intros Hu Hp Hc Hq. unfold run. rewrite Hu, Hp. cbn [negb orb].
  unfold try_except, setup_driver, driver_quit, mbind, M_bind, mret, M_ret, raise.
  rewrite Hc, Hq. by destruct (negb _).
Qed.

Lemma quit_failure_loses_the_batch_witness :
  let env := {| chrome_starts := true; login_page := sample_login true;
                search_page := search_page (sample_env true true);
                quit_ok := false;
                mock_date1 := []; mock_date2 := []; today := [] |} in
  let username := Some (lit "user") in
  let password := Some (lit "secret") in
  let w := sample_world None [] in
  provided username = true /\ provided password = true
  /\ chrome_starts env = true /\ quit_ok env = false
  /\ run env username password w = (Raise WebDriverException, w).
Proof.
  intros env username password w.
  do 4 (split; [reflexivity|]).
  apply (quit_failure_loses_the_batch env username password w); reflexivity.
Defined.

(** X12. With credentials given and a [driver.quit()] that returns, [run]
    never lets an exception out: whatever the browser does and whatever
    the store file holds, it returns. *)
Theorem run_with_credentials_returns env username password w :
  provided username = true -> provided password = true ->
  quit_ok env = true ->
  (run env username password w).1 = Return tt.
Proof.
  intros Hu Hp Hq. unfold run. rewrite Hu, Hp. cbn [negb orb].
  unfold try_except, setup_driver, driver_quit. rewrite Hq.
  unfold mbind at 1, M_bind at 1.
  destruct (chrome_starts env); [|done].
  unfold mret at 1, M_ret at 1.
  destruct (negb _); [done|].
  unfold mbind at 1, M_bind at 1, mret at 1, M_ret at 1.
  destruct (load_store_cases w) as [[existing H]|[e H]].
  - by rewrite (save_then_render _ _ _ _ H).
  - by rewrite (save_then_render_raises _ _ _ _ H).
Qed.

Lemma run_with_credentials_returns_witness :
  let env := sample_env false false in
  let username := Some (lit "user") in
  let password := Some (lit "secret") in
  let w := sample_world (Some (lit "[1, 2]")) [] in
  provided username = true /\ provided password = true
  /\ quit_ok env = true
  /\ (run env username password w).1 = Return tt.
Proof.
  intros env username password w.
  do 3 (split; [reflexivity|]).
  apply (run_with_credentials_returns env username password w); reflexivity.
Defined.

(** X13. A run never writes the report before the store. When it does
    not get to the merge (credentials given, and the browser did not
    start, the login failed or closing the browser raised), it opens no
    file and leaves the world as it was, whatever the store holds. When
    it does, on a store file that is absent or as an earlier run saved
    it, the first file it opens for writing is the store file, which then
    holds the merged collection, and no file but the report is opened
    after it. *)
Theorem run_writes_store_before_report env username password w :
  (batch_merged env username password = None ->
   (run env username password w).2 = w)
  /\ (forall batch existing,
        batch_merged env username password = Some batch ->
        store_as_saved w existing ->
        let w' := (run env username password w).2 in
        data_file w' = Some (Json.dumps (store_to_json (merge existing batch)))
        /\ exists later,
             written w' = later ++ DataFile :: written w
             /\ (forall f, f ∈ later -> f = ResultsFile)).
Proof.
  split.
  - unfold batch_merged, run.
    destruct (negb (provided username) || negb (provided password)); [done|].
    unfold try_except, setup_driver, driver_quit, mbind, M_bind, mret, M_ret, raise.
    destruct (chrome_starts env); [|done].
    destruct (login_to_linkedin (login_page env)); cbn [andb negb].
    + by destruct (quit_ok env).
    + by destruct (quit_ok env).
  - intros batch existing Hb Hstore w'. subst w'.
    assert (load_store w = (Return existing, w)) as Hload.
    { destruct Hstore as [[Hnone ->]|[Htext Hvalid]].
      - apply load_store_missing_or_corrupt. by left.
      - by apply load_saved_text. }
    rewrite (run_reaches_merge _ _ _ _ _ _ Hb Hload).
    cbn [snd written data_file]. split; [done|].
    exists [ResultsFile]. split; [done|].
    by intros f ->%list_elem_of_singleton.
Qed.

Lemma run_writes_store_before_report_witness :
  let env := sample_env true true in
  let existing := [older_record] in
  let w := sample_world (Some (Json.dumps (store_to_json existing))) [] in
  batch_merged env None None = Some (mock_startups env)
  /\ store_as_saved w existing
  /\ batch_merged (sample_env false true) (Some (lit "u")) (Some (lit "p")) = None
  /\ (run (sample_env false true) (Some (lit "u")) (Some (lit "p")) w).2 = w
  /\ data_file (run env None None w).2
     = Some (Json.dumps (store_to_json (merge existing (mock_startups env))))
  /\ exists later,
       written (run env None None w).2 = later ++ DataFile :: written w
       /\ (forall f, f ∈ later -> f = ResultsFile).
Proof.
  intros env existing w.
  assert (batch_merged env None None = Some (mock_startups env)) as H1
    by reflexivity.
  assert (store_as_saved w existing) as H2.
  { right. split; [reflexivity|].
    repeat constructor; apply valid_text_ascii; reflexivity. }
  assert (batch_merged (sample_env false true) (Some (lit "u")) (Some (lit "p"))
          = None) as H3 by reflexivity.
  split; [exact H1|]. split; [exact H2|]. split; [exact H3|].
  split.
  - exact (proj1 (run_writes_store_before_report
                    (sample_env false true) (Some (lit "u")) (Some (lit "p")) w)
                 H3).
  - exact (proj2 (run_writes_store_before_report env None None w)
                 (mock_startups env) existing H1 H2).
Defined.

(** X14. An empty credential counts as a missing one: when the username
    or the password is absent or the empty string, the run never asks the
    browser for anything and does what a run with no credentials does,
    which is to save and render the sample batch. *)
Theorem empty_credentials_use_the_sample_batch env username password :
  provided username = false \/ provided password = false ->
  run env username password = run env None None
  /\ (forall env',
        mock_date1 env' = mock_date1 env -> mock_date2 env' = mock_date2 env ->
        today env' = today env ->
        run env' username password = run env username password)
  /\ batch_merged env username password = Some (mock_startups env).
Proof.
  intros H.
  assert (negb (provided username) || negb (provided password) = true) as Hc
    by (destruct H as [-> | ->]; [done|by rewrite orb_true_r]).
  unfold run, batch_merged. rewrite Hc. cbn [provided negb orb].
  split; [done|]. split; [|done].
  intros env' H1 H2 H3. unfold mock_startups. by rewrite H1, H2, H3.
Qed.

Lemma empty_credentials_use_the_sample_batch_witness :
  let env := sample_env true true in
  let username := Some [] in
  let password := Some (lit "secret") in
  (provided username = false \/ provided password = false)
  /\ (run env username password = run env None None
      /\ (forall env',
            mock_date1 env' = mock_date1 env -> mock_date2 env' = mock_date2 env ->
            today env' = today env ->
            run env' username password = run env username password)
      /\ batch_merged env username password = Some (mock_startups env)).
Proof.
  intros env username password.
  assert (provided username = false \/ provided password = false) as H
    by (left; reflexivity).
  split; [exact H|].
  exact (empty_credentials_use_the_sample_batch env username password H).
Defined.

(** X15. Only records that qualify are ever added to the store: whatever
    batch a run hands to the merge, be it the search's or the sample one,
    every record the merge appends passes the qualifier. *)
Theorem run_adds_only_qualifying_records env username password batch existing r :
  batch_merged env username password = Some batch ->
  r ∈ new_records existing batch ->
  qualifies (description r) = true /\ r ∈ batch.
Proof.
  intros Hb Hr%new_records_subset. split; [|done].
  unfold batch_merged in Hb.
  destruct (negb (provided username) || negb (provided password)).
  - injection Hb as <-. unfold mock_startups in Hr.
    apply elem_of_cons in Hr as [-> | Hr]; [done|].
    by apply list_elem_of_singleton in Hr as ->.
  - destruct (_ && _ && _); [|done]. injection Hb as <-.
    by apply (search_qualified (search_page env)), list_elem_of_In.
Qed.

Lemma run_adds_only_qualifying_records_witness :
  let env := sample_env true true in
  let r := {| name := lit "Acme"; description := lit "YC W21. AI for tax.";
              url := []; found_date := lit "2024-05-01" |} in
  let username := Some (lit "user") in
  let password := Some (lit "secret") in
  batch_merged env username password = Some [r]
  /\ r ∈ new_records [older_record] [r]
  /\ (qualifies (description r) = true /\ r ∈ [r]).
Proof.
  intros env r username password.
  assert (batch_merged env username password = Some [r]) as H1 by reflexivity.
  assert (r ∈ new_records [older_record] [r]) as H2
    by (vm_compute; constructor).
  do 2 (split; [assumption|]).
  exact (run_adds_only_qualifying_records env username password [r]
           [older_record] r H1 H2).
Defined.

(** ** The text of the store file *)

Section StoreText.
Import Json.








End StoreText.


(** ** Links and dates *)

Section LinksAndDates.

Lemma link_not_available url : link url = lit "N/A" <-> url = [].
Proof.
  unfold link. destruct url as [|c url]; [done|].
  cbn [truthy]. split; [|done]. intros H. by vm_compute in H.
Qed.

Lemma str_compare_cons x y a b :
  str_compare (x :: a) (y :: b) =
  match (x ?= y)%N with
  | Eq => str_compare a b
  | c => c
  end.
Proof. done. Qed.

Lemma digit_compare x y :
  ((48 + x ?= 48 + y) = (x ?= y))%N.
Proof.
  destruct (N.compare_spec x y);
    [apply N.compare_eq_iff | apply N.compare_lt_iff | apply N.compare_gt_iff];
    lia.
Qed.

(** Comparing two numbers written as a leading part and a last digit. *)
Lemma compare_by_digits b x y :
  (0 < b)%N ->
  ((x ?= y) =
   match (x / b ?= y / b) with
   | Eq => (x mod b ?= y mod b)
   | c => c
   end)%N.
Proof.
  intros Hb.
  pose proof (N.div_mod x b ltac:(lia)) as Ex.
  pose proof (N.div_mod y b ltac:(lia)) as Ey.
  pose proof (N.mod_lt x b ltac:(lia)) as Hx.
  pose proof (N.mod_lt y b ltac:(lia)) as Hy.
  revert Ex Ey Hx Hy.
  generalize (x / b)%N (x mod b)%N (y / b)%N (y mod b)%N.
  intros qx rx qy ry -> -> Hx Hy.
  destruct (N.compare_spec qx qy) as [-> |H|H].
  - destruct (N.compare_spec rx ry) as [-> |H'|H'].
    + apply N.compare_refl.
    + apply N.compare_lt_iff. lia.
    + apply N.compare_gt_iff. lia.
  - apply N.compare_lt_iff. nia.
  - apply N.compare_gt_iff. nia.
Qed.

Lemma two_digits_compare x y s t :
  (x < 100)%N -> (y < 100)%N ->
  str_compare (two_digits x ++ s) (two_digits y ++ t) =
  match (x ?= y)%N with
  | Eq => str_compare s t
  | c => c
  end.
Proof.
  intros Hx Hy. unfold two_digits. cbn [app].
  rewrite !str_compare_cons, !digit_compare.
  rewrite (compare_by_digits 10 x y) by lia.
  by destruct (x / 10 ?= y / 10)%N.
Qed.

Lemma four_digits_compare x y s t :
  (x < 10000)%N -> (y < 10000)%N ->
  str_compare (four_digits x ++ s) (four_digits y ++ t) =
  match (x ?= y)%N with
  | Eq => str_compare s t
  | c => c
  end.
Proof.
  intros Hx Hy. unfold four_digits. cbn [app].
  rewrite !str_compare_cons, !digit_compare.
  rewrite (compare_by_digits 10 x y) by lia.
  rewrite (compare_by_digits 10 (x / 10) (y / 10)) by lia.
  rewrite (compare_by_digits 10 (x / 10 / 10) (y / 10 / 10)) by lia.
  rewrite !N.Div0.div_div.
  change (10 * 10)%N with 100%N. change (10 * 100)%N with 1000%N.
  destruct (x / 1000 ?= y / 1000)%N; try done.
  destruct (x / 100 mod 10 ?= y / 100 mod 10)%N; try done.
  by destruct (x / 10 mod 10 ?= y / 10 mod 10)%N.
Qed.

Lemma strftime_ymd_compare a b :
  calendar_day a -> calendar_day b ->
  str_compare (strftime_ymd a) (strftime_ymd b) = day_compare a b.
Proof.
  intros (Hya & Hma & Hda) (Hyb & Hmb & Hdb).
  unfold strftime_ymd, day_compare.
  rewrite four_digits_compare by lia.
  destruct (year a ?= year b)%N; try done.
  cbn [app]. rewrite str_compare_cons, N.compare_refl.
  rewrite two_digits_compare by lia.
  destruct (month a ?= month b)%N; try done.
  cbn [app]. rewrite str_compare_cons, N.compare_refl.
  rewrite <- (app_nil_r (two_digits (day a))), <- (app_nil_r (two_digits (day b))).
  rewrite two_digits_compare by lia.
  by destruct (day a ?= day b)%N.
Qed.

End LinksAndDates.

(** X17. The link column shows "N/A" exactly for an empty url, and a
    record collected from a card whose link could not be found has the
    empty url, so its row shows "N/A"; a card whose link has a non-empty
    address gives a row that names it. *)
Theorem unfound_link_is_not_available :
  (forall url, link url = lit "N/A" <-> url = [])
  /\ (forall startups card r,
        scan_card startups card = startups ++ [r] ->
        link_href card = None ->
        url r = [] /\ link (url r) = lit "N/A")
  /\ (forall startups card r href,
        scan_card startups card = startups ++ [r] ->
        link_href card = Some href -> href <> [] ->
        link (url r) = lit "[Profile](" ++ href ++ lit ")").
Proof.
  split; [exact link_not_available|].
  assert (forall startups card r,
            scan_card startups card = startups ++ [r] ->
            card_record card = Some r) as Hrec.
  { intros startups card r. rewrite scan_card_record.
    intros H%app_inv_head. destruct (card_record card) as [r'|]; [|done].
    destruct (qualifies _); [|done]. by injection H as ->. }
  split.
  - intros startups card r H%Hrec Hnone.
    destruct (card_record_fields card r H) as (_ & _ & Hu & _).
    rewrite (Hu Hnone). by split.
  - intros startups card r href H%Hrec Hsome Hne. unfold card_record in H.
    destruct (span_text card), (summary_text card); try done.
    injection H as <-. cbn [url]. rewrite Hsome. cbn [default].
    unfold link. by destruct href.
Qed.

(** X18. Dates, as the script writes them, are ordered as [str] the way
    the days are ordered: for two days of the calendar with a year of four
    digits, comparing the texts [strftime("%Y-%m-%d")] gives is comparing
    the days. So the report's order, latest date first, is the order of
    the days the records were found on, and two dates are the same text
    only for the same day. *)
Theorem dates_sort_as_days a b :
  calendar_day a -> calendar_day b ->
  str_compare (strftime_ymd a) (strftime_ymd b) = day_compare a b
  /\ (str_lt (strftime_ymd a) (strftime_ymd b) = true <-> day_compare a b = Lt)
  /\ (forall r1 r2,
        found_date r1 = strftime_ymd a -> found_date r2 = strftime_ymd b ->
        (not_older r1 r2 <-> day_compare a b <> Lt))
  /\ (strftime_ymd a = strftime_ymd b -> a = b).
Proof.
  intros Ha Hb. pose proof (strftime_ymd_compare a b Ha Hb) as H.
  split; [done|]. split; [|split].
  - unfold str_lt. rewrite H. by destruct (day_compare a b).
  - intros r1 r2 H1 H2. unfold not_older, key_desc, str_lt.
    rewrite H1, H2, H. by destruct (day_compare a b).
  - intros Heq. rewrite Heq in H.
    assert (str_compare (strftime_ymd b) (strftime_ymd b) = Eq) as Hrefl.
    { pose proof (str_lt_irrefl (strftime_ymd b)) as Hi.
      pose proof (str_compare_antisym (strftime_ymd b) (strftime_ymd b)) as Hs.
      unfold str_lt in Hi.
      by destruct (str_compare (strftime_ymd b) (strftime_ymd b)). }
    rewrite Hrefl in H. symmetry in H. unfold day_compare in H.
    destruct (N.compare_spec (year a) (year b)) as [Hy| |]; try done.
    destruct (N.compare_spec (month a) (month b)) as [Hm| |]; try done.
    apply N.compare_eq_iff in H. destruct a, b. cbn in *. by subst.
Qed.

Lemma dates_sort_as_days_witness :
  let a := {| year := 2023; month := 12; day := 31 |}%N in
  let b := {| year := 2024; month := 1; day := 2 |}%N in
  calendar_day a /\ calendar_day b
  /\ (str_compare (strftime_ymd a) (strftime_ymd b) = day_compare a b
      /\ (str_lt (strftime_ymd a) (strftime_ymd b) = true <-> day_compare a b = Lt)
      /\ (forall r1 r2,
            found_date r1 = strftime_ymd a -> found_date r2 = strftime_ymd b ->
            (not_older r1 r2 <-> day_compare a b <> Lt))
      /\ (strftime_ymd a = strftime_ymd b -> a = b)).
Proof.
  intros a b.
  assert (calendar_day a) as Ha by (unfold calendar_day; cbn; lia).
  assert (calendar_day b) as Hb by (unfold calendar_day; cbn; lia).
  do 2 (split; [assumption|]). exact (dates_sort_as_days a b Ha Hb).
Defined.

(** ** White space around the saved text *)

Section Padding.
Import Json.

Lemma skip_ws_all ws : Forall (fun c => is_ws c = true) ws -> skip_ws ws = [].
Proof.
  induction 1 as [|c ws Hc _ IH]; [done|]. cbn [skip_ws]. by rewrite Hc.
Qed.

Lemma skip_ws_app ws s :
  Forall (fun c => is_ws c = true) ws -> skip_ws (ws ++ s) = skip_ws s.
Proof.
  induction 1 as [|c ws Hc _ IH]; [done|]. cbn [app skip_ws]. by rewrite Hc.
Qed.

Lemma dumps_store_head R : exists tl, dumps (store_to_json R) = 91%N :: tl.
Proof.
  destruct R as [|r R]; [by exists [93%N]|].
  rewrite dumps_store_cons. eauto.
Qed.

Lemma length_dumps_store R :
  R <> [] -> length R + 4 <= length (dumps (store_to_json R)).
Proof.
  destruct R as [|r R]; [done|]. intros _. rewrite dumps_store_cons.
  change (newline_indent 1) with [10; 32; 32]%N.
  cbn [length app]. rewrite !length_app. cbn [length].
  pose proof (length_more_records R). lia.
Qed.

Lemma scan_once_empty_store f rest :
  scan_once (S f) (dumps (store_to_json []) ++ rest) = Parsed (store_to_json []) rest.
Proof.
  rewrite dumps_store_nil. change (lit "[]") with [91; 93]%N.
  cbn [app scan_once skip_ws]. by eval_tests.
Qed.

Lemma loads_padded_store R before after :
  Forall valid_record R ->
  Forall (fun c => is_ws c = true) before ->
  Forall (fun c => is_ws c = true) after ->
  loads (before ++ dumps (store_to_json R) ++ after)
  = Parsed (store_to_json R) [].
Proof.
  intros HR Hb Ha. unfold loads.
  destruct (dumps_store_head R) as [tl Htl].
  assert (startswith [65279%N] (before ++ dumps (store_to_json R) ++ after)
          = false) as ->.
  { destruct Hb as [|c ws Hc _]; cbn [app startswith].
    - rewrite Htl. by cbn.
    - destruct (N.eqb_spec 65279 c) as [<-|]; [by vm_compute in Hc|done]. }
  rewrite skip_ws_app by done.
  assert (skip_ws (dumps (store_to_json R) ++ after)
          = dumps (store_to_json R) ++ after) as ->
    by (by rewrite Htl).
  destruct (decide (R = [])) as [-> |Hne].
  - rewrite Nat.add_1_r, scan_once_empty_store. by rewrite skip_ws_all.
  - pose proof (length_dumps_store R Hne) as Hlen.
    replace (2 * length (before ++ dumps (store_to_json R) ++ after) + 1)
      with (S (S (S (S (S (S (S (length R
              + (2 * length (before ++ dumps (store_to_json R) ++ after)
                 + 1 - 7 - length R)))))))))
      by (rewrite !length_app in *; lia).
    rewrite scan_once_store by done. by rewrite skip_ws_all.
Qed.

End Padding.

(** X19. White space around the saved text does no harm: the text a run
    saved, with spaces, tabs or line breaks before it or after it (a
    final new line, say), still loads as the collection saved. *)
Theorem padded_store_loads R before after w :
  Forall valid_record R ->
  Forall (fun c => Json.is_ws c = true) before ->
  Forall (fun c => Json.is_ws c = true) after ->
  data_file w = Some (before ++ Json.dumps (store_to_json R) ++ after) ->
  load_store w = (Return R, w).
Proof.
  intros HR Hb Ha Hw. unfold load_store, mbind, M_bind, get_world.
  by rewrite Hw, (loads_padded_store R before after HR Hb Ha), store_of_to_json.
Qed.

Lemma padded_store_loads_witness :
  let R := [older_record; newer_record] in
  let before := [32; 10]%N in
  let after := [10%N] in
  let w := sample_world (Some (before ++ Json.dumps (store_to_json R) ++ after)) [] in
  Forall valid_record R
  /\ Forall (fun c => Json.is_ws c = true) before
  /\ Forall (fun c => Json.is_ws c = true) after
  /\ data_file w = Some (before ++ Json.dumps (store_to_json R) ++ after)
  /\ load_store w = (Return R, w).
Proof.
  intros R before after w.
  assert (Forall valid_record R) as H1
    by (repeat constructor; apply valid_text_ascii; reflexivity).
  assert (Forall (fun c => Json.is_ws c = true) before) as H2
    by (repeat constructor).
  assert (Forall (fun c => Json.is_ws c = true) after) as H3
    by (repeat constructor).
  assert (data_file w = Some (before ++ Json.dumps (store_to_json R) ++ after))
    as H4 by reflexivity.
  do 4 (split; [assumption|]).
  exact (padded_store_loads R before after w H1 H2 H3 H4).
Defined.
